(** * Writable streams: a shallow embedding of
      [reference-implementation/lib/writable-stream.js]

    The JavaScript module is a state machine over one stream object, its
    controller, the writers that were acquired on it and the promises it
    hands out.  The embedding keeps that shape:

    - the mutable objects live in one record [World] (the stream, its
      controller, a store of writer objects, a store of promise objects);
    - every JavaScript function becomes a computation in a small state and
      exception monad [M]; a [throw] (also the one of a failed [assert])
      keeps the mutations done so far, as in JavaScript;
    - the underlying sink is an external collaborator: each call to one of
      its methods is logged and registers a pending task; the settlement of
      the promise the sink returned is an event of the environment, which
      runs the continuation the source attached with [.then]. *)

From Stdlib Require Import List String ZArith Bool Arith Lia.
From stdpp Require Import base list.
Import ListNotations.

Set Default Proof Using "Type".

(** ** JavaScript values *)

Inductive ErrorKind := TypeError | RangeError | AssertionError.

(** Chunks, abort reasons and errors are opaque to the module.  Values made
    by user code are [VUser]; an error object made by the module itself
    ([new TypeError (...)]) carries the serial number of its allocation, so
    that two errors with the same message are still two objects. *)
Inductive Value :=
| VUndefined
| VUser (n : nat)
| VStr (s : string)
| VError (serial : nat) (kind : ErrorKind) (message : string).

Inductive PromiseState :=
| Pending
| Fulfilled (v : Value)
| Rejected (r : Value).

(** Promises and writers are objects; they are named by their index in the
    stores of [World]. *)
Abbreviation pid := nat (only parsing).
Abbreviation wid := nat (only parsing).

Inductive StreamState := writable | closed | errored.

Definition StreamState_name (s : StreamState) : string :=
  match s with
  | writable => "writable"
  | closed => "closed"
  | errored => "errored"
  end.

Definition StreamState_eqb (a b : StreamState) : bool :=
  match a, b with
  | writable, writable | closed, closed | errored, errored => true
  | _, _ => false
  end.

(** ** Numbers

    Chunk sizes and the high-water mark are JavaScript numbers.  The module
    only adds them up, subtracts the total from the high-water mark and
    compares the difference with zero, so the embedding is generic in the
    arithmetic.  [nsub_zero_le0] is what the claims need of it: subtracting
    the total of an empty queue does not change the comparison with zero. *)
Class JSNumber (num : Type) := {
  nzero : num;
  none : num;
  nadd : num -> num -> num;
  nsub : num -> num -> num;
  nle0 : num -> bool;
  nfinite_nonneg : num -> bool;
  nsub_zero_le0 : forall x, nle0 (nsub x nzero) = nle0 x
}.

#[export] Program Instance JSNumber_Z : JSNumber Z := {|
  nzero := 0%Z;
  none := 1%Z;
  nadd := Z.add;
  nsub := Z.sub;
  nle0 := fun x => (x <=? 0)%Z;
  nfinite_nonneg := fun x => (0 <=? x)%Z
|}.
Next Obligation. intros x. now rewrite Z.sub_0_r. Qed.

(** What a call of a user function (the strategy's [size], the sink's
    [start]) or of a module function ends with. *)
Inductive Completion (A : Type) :=
| Normal (a : A)
| Throw (e : Value).
Arguments Normal {A} a.
Arguments Throw {A} e.

(** ** The objects *)

(** [{ _resolve, _reject }] of one promise made with [new Promise]. *)
Record Request := { rq_promise : pid }.

(** [{ _resolve, _reject, _reason }]. *)
Record AbortRequest := { ar_promise : pid; _reason : Value }.

Record Writer := {
  _ownerWritableStream : bool;            (* false: undefined (released) *)
  _readyPromise : pid;
  _readyPromise_resolve : option pid;
  _readyPromise_reject : option pid;
  _closedPromise : pid;
  _closedPromise_resolve : option pid;
  _closedPromise_reject : option pid
}.

(** A queued record is the string ['close'] or [{ chunk }]. *)
Inductive WriteRecord := QClose | QChunk (chunk : Value).

(** Calls made on the underlying sink, in order. *)
Inductive SinkCall :=
| SinkStart
| SinkWrite (chunk : Value)
| SinkClose
| SinkAbort (reason : Value).

(** A sink operation whose promise has not settled yet, with what the source
    attached to it.  [TAbort p fwd]: [p] is the promise
    [sinkAbortPromise.then(() => undefined)]; [fwd] is the abort request it
    is forwarded to by [WritableStreamFinishInflightWrite]. *)
Inductive Task :=
| TStart
| TWrite
| TClose
| TAbort (p : pid) (fwd : option pid).

Inductive Outcome := fulfils | rejects (r : Value).

(** The part of the sink object the module reads itself. *)
Record Sink := {
  sink_type : Value;                      (* underlyingSink.type *)
  sink_start : Completion unit            (* what sink.start(controller) does *)
}.

Section Model.
Context {num : Type} {JSN : JSNumber num}.

Record WritableStream := {
  _state : StreamState;
  _storedError : Value;
  _writer : option wid;
  _writeRequests : list Request;
  _inflightWriteRequest : option Request;
  _closeRequest : option Request;
  _inflightCloseRequest : option Request;
  _pendingAbortRequest : option AbortRequest;
  _backpressure : option bool              (* None: undefined *)
}.

Record WritableStreamDefaultController := {
  _underlyingSink : Sink;
  _queue : list (WriteRecord * num);
  _started : bool;
  _strategySize : option (Value -> Completion num);
  _strategyHWM : num
}.

Record World := {
  stream : WritableStream;
  controller : WritableStreamDefaultController;
  writers : list Writer;
  promises : list PromiseState;
  tasks : list Task;
  sinkCalls : list SinkCall;
  nextError : nat
}.

(** Field updates. *)
Definition with_stream (f : WritableStream -> WritableStream) (w : World) : World :=
  {| stream := f (stream w); controller := controller w; writers := writers w;
     promises := promises w; tasks := tasks w; sinkCalls := sinkCalls w;
     nextError := nextError w |}.
Definition with_controller (f : WritableStreamDefaultController -> WritableStreamDefaultController)
    (w : World) : World :=
  {| stream := stream w; controller := f (controller w); writers := writers w;
     promises := promises w; tasks := tasks w; sinkCalls := sinkCalls w;
     nextError := nextError w |}.
Definition with_writers (f : list Writer -> list Writer) (w : World) : World :=
  {| stream := stream w; controller := controller w; writers := f (writers w);
     promises := promises w; tasks := tasks w; sinkCalls := sinkCalls w;
     nextError := nextError w |}.
Definition with_promises (f : list PromiseState -> list PromiseState) (w : World) : World :=
  {| stream := stream w; controller := controller w; writers := writers w;
     promises := f (promises w); tasks := tasks w; sinkCalls := sinkCalls w;
     nextError := nextError w |}.
Definition with_tasks (f : list Task -> list Task) (w : World) : World :=
  {| stream := stream w; controller := controller w; writers := writers w;
     promises := promises w; tasks := f (tasks w); sinkCalls := sinkCalls w;
     nextError := nextError w |}.
Definition with_sinkCalls (f : list SinkCall -> list SinkCall) (w : World) : World :=
  {| stream := stream w; controller := controller w; writers := writers w;
     promises := promises w; tasks := tasks w; sinkCalls := f (sinkCalls w);
     nextError := nextError w |}.
Definition with_nextError (f : nat -> nat) (w : World) : World :=
  {| stream := stream w; controller := controller w; writers := writers w;
     promises := promises w; tasks := tasks w; sinkCalls := sinkCalls w;
     nextError := f (nextError w) |}.

Definition set_state (v : StreamState) (s : WritableStream) : WritableStream :=
  {| _state := v; _storedError := _storedError s; _writer := _writer s;
     _writeRequests := _writeRequests s; _inflightWriteRequest := _inflightWriteRequest s;
     _closeRequest := _closeRequest s; _inflightCloseRequest := _inflightCloseRequest s;
     _pendingAbortRequest := _pendingAbortRequest s; _backpressure := _backpressure s |}.
Definition set_storedError (v : Value) (s : WritableStream) : WritableStream :=
  {| _state := _state s; _storedError := v; _writer := _writer s;
     _writeRequests := _writeRequests s; _inflightWriteRequest := _inflightWriteRequest s;
     _closeRequest := _closeRequest s; _inflightCloseRequest := _inflightCloseRequest s;
     _pendingAbortRequest := _pendingAbortRequest s; _backpressure := _backpressure s |}.
Definition set_writer (v : option wid) (s : WritableStream) : WritableStream :=
  {| _state := _state s; _storedError := _storedError s; _writer := v;
     _writeRequests := _writeRequests s; _inflightWriteRequest := _inflightWriteRequest s;
     _closeRequest := _closeRequest s; _inflightCloseRequest := _inflightCloseRequest s;
     _pendingAbortRequest := _pendingAbortRequest s; _backpressure := _backpressure s |}.
Definition set_writeRequests (v : list Request) (s : WritableStream) : WritableStream :=
  {| _state := _state s; _storedError := _storedError s; _writer := _writer s;
     _writeRequests := v; _inflightWriteRequest := _inflightWriteRequest s;
     _closeRequest := _closeRequest s; _inflightCloseRequest := _inflightCloseRequest s;
     _pendingAbortRequest := _pendingAbortRequest s; _backpressure := _backpressure s |}.
Definition set_inflightWriteRequest (v : option Request) (s : WritableStream) : WritableStream :=
  {| _state := _state s; _storedError := _storedError s; _writer := _writer s;
     _writeRequests := _writeRequests s; _inflightWriteRequest := v;
     _closeRequest := _closeRequest s; _inflightCloseRequest := _inflightCloseRequest s;
     _pendingAbortRequest := _pendingAbortRequest s; _backpressure := _backpressure s |}.
Definition set_closeRequest (v : option Request) (s : WritableStream) : WritableStream :=
  {| _state := _state s; _storedError := _storedError s; _writer := _writer s;
     _writeRequests := _writeRequests s; _inflightWriteRequest := _inflightWriteRequest s;
     _closeRequest := v; _inflightCloseRequest := _inflightCloseRequest s;
     _pendingAbortRequest := _pendingAbortRequest s; _backpressure := _backpressure s |}.
Definition set_inflightCloseRequest (v : option Request) (s : WritableStream) : WritableStream :=
  {| _state := _state s; _storedError := _storedError s; _writer := _writer s;
     _writeRequests := _writeRequests s; _inflightWriteRequest := _inflightWriteRequest s;
     _closeRequest := _closeRequest s; _inflightCloseRequest := v;
     _pendingAbortRequest := _pendingAbortRequest s; _backpressure := _backpressure s |}.
Definition set_pendingAbortRequest (v : option AbortRequest) (s : WritableStream) : WritableStream :=
  {| _state := _state s; _storedError := _storedError s; _writer := _writer s;
     _writeRequests := _writeRequests s; _inflightWriteRequest := _inflightWriteRequest s;
     _closeRequest := _closeRequest s; _inflightCloseRequest := _inflightCloseRequest s;
     _pendingAbortRequest := v; _backpressure := _backpressure s |}.
Definition set_backpressure (v : option bool) (s : WritableStream) : WritableStream :=
  {| _state := _state s; _storedError := _storedError s; _writer := _writer s;
     _writeRequests := _writeRequests s; _inflightWriteRequest := _inflightWriteRequest s;
     _closeRequest := _closeRequest s; _inflightCloseRequest := _inflightCloseRequest s;
     _pendingAbortRequest := _pendingAbortRequest s; _backpressure := v |}.

Definition set_queue (v : list (WriteRecord * num)) (c : WritableStreamDefaultController)
    : WritableStreamDefaultController :=
  {| _underlyingSink := _underlyingSink c; _queue := v; _started := _started c;
     _strategySize := _strategySize c; _strategyHWM := _strategyHWM c |}.
Definition set_started (v : bool) (c : WritableStreamDefaultController)
    : WritableStreamDefaultController :=
  {| _underlyingSink := _underlyingSink c; _queue := _queue c; _started := v;
     _strategySize := _strategySize c; _strategyHWM := _strategyHWM c |}.

Definition set_owner (v : bool) (x : Writer) : Writer :=
  {| _ownerWritableStream := v; _readyPromise := _readyPromise x;
     _readyPromise_resolve := _readyPromise_resolve x;
     _readyPromise_reject := _readyPromise_reject x;
     _closedPromise := _closedPromise x;
     _closedPromise_resolve := _closedPromise_resolve x;
     _closedPromise_reject := _closedPromise_reject x |}.
Definition set_ready (p : pid) (res rej : option pid) (x : Writer) : Writer :=
  {| _ownerWritableStream := _ownerWritableStream x; _readyPromise := p;
     _readyPromise_resolve := res; _readyPromise_reject := rej;
     _closedPromise := _closedPromise x;
     _closedPromise_resolve := _closedPromise_resolve x;
     _closedPromise_reject := _closedPromise_reject x |}.
Definition set_closed (p : pid) (res rej : option pid) (x : Writer) : Writer :=
  {| _ownerWritableStream := _ownerWritableStream x; _readyPromise := _readyPromise x;
     _readyPromise_resolve := _readyPromise_resolve x;
     _readyPromise_reject := _readyPromise_reject x;
     _closedPromise := p; _closedPromise_resolve := res; _closedPromise_reject := rej |}.


(** ** The monad: state, and exceptions that keep the state *)

Definition M (A : Type) : Type := World -> World * Completion A.

#[global] Instance M_ret : MRet M := fun A a w => (w, Normal a).
#[global] Instance M_bind : MBind M := fun A B f m w =>
  match m w with
  | (w', Normal a) => f a w'
  | (w', Throw e) => (w', Throw e)
  end.

Definition gets {A} (f : World -> A) : M A := fun w => (w, Normal (f w)).
Definition modify (f : World -> World) : M unit := fun w => (f w, Normal tt).
Definition throw {A} (e : Value) : M A := fun w => (w, Throw e).

(** [try { m } catch (e) { handler e }] *)
Definition try_catch {A} (m : M A) (handler : Value -> M A) : M A := fun w =>
  match m w with
  | (w', Throw e) => handler e w'
  | (w', Normal a) => (w', Normal a)
  end.

Local Open Scope string_scope.

(** [new TypeError(msg)] and the like: a new error object. *)
Definition new_error (kind : ErrorKind) (msg : string) : M Value := fun w =>
  (with_nextError S w, Normal (VError (nextError w) kind msg)).

(** [assert(c, msg)] of Node: throws an [AssertionError] when [c] is false.
    Where the source gives no message the model takes the empty one. *)
Definition no_message : string := EmptyString.

Definition assert (c : bool) (msg : string) : M unit :=
  if c then mret tt else e ← new_error AssertionError msg; throw e.

(** [new Promise(...)], [Promise.resolve(v)], [Promise.reject(r)]: a new
    promise object in the given state. *)
Definition new_promise (st : PromiseState) : M pid := fun w =>
  (with_promises (fun h => (h ++ [st])%list) w, Normal (length (promises w))).
Definition Promise_resolve (v : Value) : M pid := new_promise (Fulfilled v).
Definition Promise_reject (r : Value) : M pid := new_promise (Rejected r).

(** Calling the resolve or reject function of promise [p]: it settles [p]
    when [p] is pending and does nothing otherwise. *)
Definition settle (p : pid) (st : PromiseState) : M unit := fun w =>
  match promises w !! p with
  | Some Pending => (with_promises (fun h => <[p := st]> h) w, Normal tt)
  | _ => (w, Normal tt)
  end.
Definition call_resolve (p : pid) (v : Value) : M unit := settle p (Fulfilled v).
Definition call_reject (p : pid) (r : Value) : M unit := settle p (Rejected r).

(** [o !== undefined] *)
Definition is_set {A} (o : option A) : bool :=
  match o with Some _ => true | None => false end.

(** Reading and writing the fields of writer object [x]. *)
Definition the_writer (x : wid) : M Writer := fun w =>
  match writers w !! x with
  | Some wr => (w, Normal wr)
  | None => (w, Throw VUndefined)
  end.
Definition update_writer (x : wid) (f : Writer -> Writer) : M unit :=
  modify (with_writers (alter f x)).

Fixpoint for_each {A} (l : list A) (body : A -> M unit) : M unit :=
  match l with
  | [] => mret tt
  | a :: l' => body a;; for_each l' body
  end.

(** *** Helper functions for the WritableStreamDefaultWriter (lines 936-1043) *)

Definition defaultWriterBrandCheckException (name : string) : M Value :=
  new_error TypeError
    (String.append "WritableStreamDefaultWriter.prototype."
       (String.append name " can only be used on a WritableStreamDefaultWriter")).

Definition defaultWriterLockException (name : string) : M Value :=
  new_error TypeError
    (String.append "Cannot " (String.append name " a stream using a released writer")).

Definition defaultWriterClosedPromiseInitialize (x : wid) : M unit :=
  p ← new_promise Pending;
  update_writer x (set_closed p (Some p) (Some p)).

Definition defaultWriterClosedPromiseInitializeAsRejected (x : wid) (reason : Value) : M unit :=
  p ← Promise_reject reason;
  update_writer x (set_closed p None None).

Definition defaultWriterClosedPromiseInitializeAsResolved (x : wid) : M unit :=
  p ← Promise_resolve VUndefined;
  update_writer x (set_closed p None None).

Definition defaultWriterClosedPromiseReject (x : wid) (reason : Value) : M unit :=
  wr ← the_writer x;
  assert (is_set (_closedPromise_resolve wr)) no_message;;
  assert (is_set (_closedPromise_reject wr)) no_message;;
  match _closedPromise_reject wr with Some p => call_reject p reason | None => mret tt end;;
  update_writer x (fun wr => set_closed (_closedPromise wr) None None wr).

Definition defaultWriterClosedPromiseResetToRejected (x : wid) (reason : Value) : M unit :=
  wr ← the_writer x;
  assert (negb (is_set (_closedPromise_resolve wr))) no_message;;
  assert (negb (is_set (_closedPromise_reject wr))) no_message;;
  p ← Promise_reject reason;
  update_writer x (fun wr =>
    set_closed p (_closedPromise_resolve wr) (_closedPromise_reject wr) wr).

Definition defaultWriterClosedPromiseResolve (x : wid) : M unit :=
  wr ← the_writer x;
  assert (is_set (_closedPromise_resolve wr)) no_message;;
  assert (is_set (_closedPromise_reject wr)) no_message;;
  match _closedPromise_resolve wr with Some p => call_resolve p VUndefined | None => mret tt end;;
  update_writer x (fun wr => set_closed (_closedPromise wr) None None wr).

Definition defaultWriterReadyPromiseInitialize (x : wid) : M unit :=
  p ← new_promise Pending;
  update_writer x (set_ready p (Some p) (Some p)).

Definition defaultWriterReadyPromiseInitializeAsRejected (x : wid) (reason : Value) : M unit :=
  p ← Promise_reject reason;
  update_writer x (set_ready p None None).

Definition defaultWriterReadyPromiseInitializeAsResolved (x : wid) : M unit :=
  p ← Promise_resolve VUndefined;
  update_writer x (set_ready p None None).

Definition defaultWriterReadyPromiseReject (x : wid) (reason : Value) : M unit :=
  wr ← the_writer x;
  assert (is_set (_readyPromise_resolve wr)) no_message;;
  assert (is_set (_readyPromise_reject wr)) no_message;;
  match _readyPromise_reject wr with Some p => call_reject p reason | None => mret tt end;;
  update_writer x (fun wr => set_ready (_readyPromise wr) None None wr).

Definition defaultWriterReadyPromiseReset (x : wid) : M unit :=
  wr ← the_writer x;
  assert (negb (is_set (_readyPromise_resolve wr))) no_message;;
  assert (negb (is_set (_readyPromise_reject wr))) no_message;;
  p ← new_promise Pending;
  update_writer x (set_ready p (Some p) (Some p)).

Definition defaultWriterReadyPromiseResetToRejected (x : wid) (reason : Value) : M unit :=
  wr ← the_writer x;
  assert (negb (is_set (_readyPromise_resolve wr))) no_message;;
  assert (negb (is_set (_readyPromise_reject wr))) no_message;;
  p ← Promise_reject reason;
  update_writer x (fun wr =>
    set_ready p (_readyPromise_resolve wr) (_readyPromise_reject wr) wr).

Definition defaultWriterReadyPromiseResolve (x : wid) : M unit :=
  wr ← the_writer x;
  assert (is_set (_readyPromise_resolve wr)) no_message;;
  assert (is_set (_readyPromise_reject wr)) no_message;;
  match _readyPromise_resolve wr with Some p => call_resolve p VUndefined | None => mret tt end;;
  update_writer x (fun wr => set_ready (_readyPromise wr) None None wr).


(** *** The queue with sizes ([queue-with-sizes.js]) *)

(** Modelled from the spec: [EnqueueValueWithSize] of [queue-with-sizes.js],
    which is not among the sources.  "enqueue(v, s): fails with InvalidSize
    when s is NaN, negative, or non-finite"; otherwise the record is
    appended. *)
Definition EnqueueValueWithSize (value : WriteRecord) (size : num) : M unit :=
  if nfinite_nonneg size
  then modify (with_controller (fun c => set_queue (_queue c ++ [(value, size)])%list c))
  else e ← new_error RangeError "InvalidSize"; throw e.

(** Modelled from the spec: [DequeueValue] of [queue-with-sizes.js].
    "dequeue(): returns and removes the head value; undefined when empty." *)
Definition DequeueValue : M (option WriteRecord) :=
  q ← gets (fun w => _queue (controller w));
  match q with
  | [] => mret None
  | (value, _) :: rest => modify (with_controller (set_queue rest));; mret (Some value)
  end.

(** Modelled from the spec: [PeekQueueValue] of [queue-with-sizes.js].
    "peek(): returns the head value without mutation." *)
Definition PeekQueueValue (q : list (WriteRecord * num)) : option WriteRecord :=
  match q with
  | [] => None
  | (value, _) :: _ => Some value
  end.

(** Modelled from the spec: [GetTotalQueueSize] of [queue-with-sizes.js].
    "totalSize(): sum of sizes of all current records." *)
Definition GetTotalQueueSize (q : list (WriteRecord * num)) : num :=
  fold_left (fun total pair => nadd total (snd pair)) q nzero.

(** *** Abstract operations for the WritableStream (lines 92-394) *)

Definition IsWritableStreamLocked (s : WritableStream) : bool :=
  match _writer s with
  | None => false
  | Some _ => true
  end.

Definition WritableStreamIsReadyForWrites (s : WritableStream) : bool :=
  if StreamState_eqb (_state s) writable && negb (is_set (_pendingAbortRequest s))
     && negb (is_set (_closeRequest s))
     && match _backpressure s with Some true => true | _ => false end
  then true
  else false.

Definition WritableStreamHasOperationMarkedInflight (s : WritableStream) : bool :=
  if negb (is_set (_inflightWriteRequest s)) && negb (is_set (_inflightCloseRequest s))
  then false
  else true.

Definition WritableStreamRejectClosedPromiseIfAny : M unit :=
  s ← gets stream;
  match _writer s with
  | Some writer =>
      defaultWriterClosedPromiseReject writer (_storedError s)
      (* writer._closedPromise.catch(() => {}) only marks the rejection as handled *)
  | None => mret tt
  end.

Definition WritableStreamRejectPendingAbortRequest : M unit :=
  s ← gets stream;
  match _pendingAbortRequest s with
  | Some abortRequest =>
      call_reject (ar_promise abortRequest) (_storedError s);;
      modify (with_stream (set_pendingAbortRequest None))
  | None => mret tt
  end.

Definition WritableStreamRejectPromisesInReactionToError : M unit :=
  s ← gets stream;
  assert (StreamState_eqb (_state s) errored) no_message;;
  let storedError := _storedError s in
  for_each (_writeRequests s) (fun writeRequest =>
    call_reject (rq_promise writeRequest) storedError);;
  modify (with_stream (set_writeRequests []));;
  s ← gets stream;
  match _closeRequest s with
  | Some closeRequest =>
      assert (negb (is_set (_inflightCloseRequest s))) no_message;;
      call_reject (rq_promise closeRequest) storedError;;
      modify (with_stream (set_closeRequest None))
  | None => mret tt
  end;;
  WritableStreamRejectClosedPromiseIfAny.

(** [isPending] is [None] when the caller passes two arguments only. *)
Definition WritableStreamDefaultWriterEnsureReadyPromiseRejectedWith
    (error : Value) (isPending : option bool) : M unit :=
  s ← gets stream;
  match _writer s with
  | None => mret tt
  | Some writer =>
      let isPending :=
        match isPending with
        | None => WritableStreamIsReadyForWrites s
        | Some b => b
        end in
      (if isPending
       then defaultWriterReadyPromiseReject writer error
       else defaultWriterReadyPromiseResetToRejected writer error)
      (* writer._readyPromise.catch(() => {}) only marks the rejection as handled *)
  end.

Definition WritableStreamFinishAbort : M unit :=
  modify (with_stream (set_state errored));;
  e ← new_error TypeError "Aborted";
  modify (with_stream (set_storedError e));;
  WritableStreamRejectPromisesInReactionToError.

(** [PromiseInvokeOrNoop(sink, method, args)] ([helpers.js]): the method is
    called if the sink has it, and the call yields a promise.  The call is
    logged and the promise becomes a pending task with its continuation. *)
Definition PromiseInvokeOrNoop (call : SinkCall) (continuation : Task) : M unit :=
  modify (with_sinkCalls (fun l => l ++ [call])%list);;
  modify (with_tasks (fun l => l ++ [continuation])%list).

(** Returns [sinkAbortPromise.then(() => undefined)]; [fwd] is the request
    the caller forwards that promise to, if any. *)
Definition WritableStreamDefaultControllerAbort (reason : Value) (fwd : option pid) : M pid :=
  modify (with_controller (set_queue []));;
  p ← new_promise Pending;
  PromiseInvokeOrNoop (SinkAbort reason) (TAbort p fwd);;
  mret p.

Definition WritableStreamAbort (reason : Value) : M pid :=
  state ← gets (fun w => _state (stream w));
  if StreamState_eqb state closed then Promise_resolve VUndefined
  else if StreamState_eqb state errored then
    storedError ← gets (fun w => _storedError (stream w));
    Promise_reject storedError
  else
    error ← new_error TypeError "Aborted";
    s ← gets stream;
    if is_set (_pendingAbortRequest s) then Promise_reject error
    else
      assert (StreamState_eqb state writable) "state must be writable or closing";;
      (* assert(controller !== undefined): the controller always exists here *)
      WritableStreamDefaultWriterEnsureReadyPromiseRejectedWith error None;;
      s ← gets stream;
      if negb (WritableStreamHasOperationMarkedInflight s) then
        WritableStreamFinishAbort;;
        WritableStreamDefaultControllerAbort reason None
      else
        promise ← new_promise Pending;
        modify (with_stream (set_pendingAbortRequest
          (Some {| ar_promise := promise; _reason := reason |})));;
        mret promise.

(** *** WritableStream API exposed for controllers *)

Definition WritableStreamAddWriteRequest : M pid :=
  s ← gets stream;
  assert (IsWritableStreamLocked s) no_message;;
  assert (StreamState_eqb (_state s) writable) no_message;;
  promise ← new_promise Pending;
  modify (with_stream (fun s =>
    set_writeRequests (_writeRequests s ++ [{| rq_promise := promise |}])%list s));;
  mret promise.

Definition WritableStreamFinishInflightWrite : M unit :=
  s ← gets stream;
  assert (is_set (_inflightWriteRequest s)) no_message;;
  match _inflightWriteRequest s with
  | Some r => call_resolve (rq_promise r) VUndefined
  | None => mret tt
  end;;
  modify (with_stream (set_inflightWriteRequest None));;
  s ← gets stream;
  let state := _state s in
  if StreamState_eqb state errored then
    WritableStreamRejectPendingAbortRequest;;
    WritableStreamRejectPromisesInReactionToError
  else
    match _pendingAbortRequest s with
    | None => mret tt
    | Some _ =>
        WritableStreamFinishAbort;;
        abortRequest ← gets (fun w => _pendingAbortRequest (stream w));
        modify (with_stream (set_pendingAbortRequest None));;
        match abortRequest with
        | Some abortRequest =>
            WritableStreamDefaultControllerAbort (_reason abortRequest)
              (Some (ar_promise abortRequest));;
            mret tt
        | None =>
            e ← new_error TypeError "Cannot read property '_reason' of undefined";
            throw e
        end
    end.

Definition WritableStreamFinishInflightWriteWithError (reason : Value) : M unit :=
  s ← gets stream;
  assert (is_set (_inflightWriteRequest s)) no_message;;
  match _inflightWriteRequest s with
  | Some r => call_reject (rq_promise r) reason
  | None => mret tt
  end;;
  modify (with_stream (set_inflightWriteRequest None));;
  s ← gets stream;
  let state := _state s in
  let wasAborted := is_set (_pendingAbortRequest s) in
  let isReadyForWrites := WritableStreamIsReadyForWrites s in
  (if StreamState_eqb state errored then
     WritableStreamRejectPendingAbortRequest
   else
     assert (StreamState_eqb state writable) no_message;;
     modify (with_stream (set_state errored));;
     modify (with_stream (set_storedError reason));;
     (if negb wasAborted
      then WritableStreamDefaultWriterEnsureReadyPromiseRejectedWith reason (Some isReadyForWrites)
      else mret tt);;
     WritableStreamRejectPendingAbortRequest);;
  WritableStreamRejectPromisesInReactionToError.

Definition WritableStreamFinishInflightClose : M unit :=
  s ← gets stream;
  assert (is_set (_inflightCloseRequest s)) no_message;;
  match _inflightCloseRequest s with
  | Some r => call_resolve (rq_promise r) VUndefined
  | None => mret tt
  end;;
  modify (with_stream (set_inflightCloseRequest None));;
  s ← gets stream;
  let state := _state s in
  let wasAborted := is_set (_pendingAbortRequest s) in
  if StreamState_eqb state errored then
    WritableStreamRejectPendingAbortRequest;;
    WritableStreamRejectClosedPromiseIfAny
  else
    assert (StreamState_eqb state writable) no_message;;
    if negb wasAborted then
      match _writer s with
      | Some writer => defaultWriterClosedPromiseResolve writer
      | None => mret tt
      end;;
      modify (with_stream (set_state closed))
    else
      match _pendingAbortRequest s with
      | Some abortRequest => call_resolve (ar_promise abortRequest) VUndefined
      | None => mret tt
      end;;
      modify (with_stream (set_pendingAbortRequest None));;
      modify (with_stream (set_state errored));;
      e ← new_error TypeError "Abort requested but closed successfully";
      modify (with_stream (set_storedError e));;
      WritableStreamRejectClosedPromiseIfAny.

Definition WritableStreamFinishInflightCloseWithError (reason : Value) : M unit :=
  s ← gets stream;
  assert (is_set (_inflightCloseRequest s)) no_message;;
  match _inflightCloseRequest s with
  | Some r => call_reject (rq_promise r) reason
  | None => mret tt
  end;;
  modify (with_stream (set_inflightCloseRequest None));;
  s ← gets stream;
  let state := _state s in
  let wasAborted := is_set (_pendingAbortRequest s) in
  (if StreamState_eqb state errored then
     WritableStreamRejectPendingAbortRequest
   else
     assert (StreamState_eqb state writable) no_message;;
     modify (with_stream (set_state errored));;
     modify (with_stream (set_storedError reason));;
     (if negb wasAborted
      then WritableStreamDefaultWriterEnsureReadyPromiseRejectedWith reason (Some false)
      else mret tt);;
     WritableStreamRejectPendingAbortRequest);;
  WritableStreamRejectClosedPromiseIfAny.

Definition WritableStreamMarkCloseRequestInflight : M unit :=
  s ← gets stream;
  assert (negb (is_set (_inflightCloseRequest s))) no_message;;
  assert (is_set (_closeRequest s)) no_message;;
  modify (with_stream (fun s => set_inflightCloseRequest (_closeRequest s) s));;
  modify (with_stream (set_closeRequest None)).

Definition WritableStreamMarkFirstWriteRequestInflight : M unit :=
  s ← gets stream;
  assert (negb (is_set (_inflightWriteRequest s))) "there must be no pending write request";;
  assert (negb (Nat.eqb (length (_writeRequests s)) 0)) "writeRequests must not be empty";;
  modify (with_stream (fun s =>
    set_writeRequests (tail (_writeRequests s))
      (set_inflightWriteRequest (head (_writeRequests s)) s))).

Definition option_bool_eqb (a b : option bool) : bool :=
  match a, b with
  | Some x, Some y => Bool.eqb x y
  | None, None => true
  | _, _ => false
  end.

Definition WritableStreamUpdateBackpressure (backpressure : bool) : M unit :=
  s ← gets stream;
  assert (StreamState_eqb (_state s) writable) no_message;;
  assert (negb (is_set (_closeRequest s))) no_message;;
  match _writer s with
  | Some writer =>
      if negb (option_bool_eqb (Some backpressure) (_backpressure s)) then
        if backpressure
        then defaultWriterReadyPromiseReset writer
        else defaultWriterReadyPromiseResolve writer
      else mret tt
  | None => mret tt
  end;;
  modify (with_stream (set_backpressure (Some backpressure))).


(** *** Abstract operations for the WritableStreamDefaultController
        (lines 728-928) *)

Definition WritableStreamDefaultControllerGetDesiredSize
    (c : WritableStreamDefaultController) : num :=
  let queueSize := GetTotalQueueSize (_queue c) in
  nsub (_strategyHWM c) queueSize.

Definition WritableStreamDefaultControllerGetBackpressure
    (c : WritableStreamDefaultController) : bool :=
  let desiredSize := WritableStreamDefaultControllerGetDesiredSize c in
  nle0 desiredSize.

Definition WritableStreamDefaultControllerError (e : Value) : M unit :=
  s ← gets stream;
  assert (StreamState_eqb (_state s) writable) no_message;;
  let isReadyForWrites := WritableStreamIsReadyForWrites s in
  modify (with_stream (set_state errored));;
  modify (with_stream (set_storedError e));;
  (if negb (is_set (_pendingAbortRequest s))
   then WritableStreamDefaultWriterEnsureReadyPromiseRejectedWith e (Some isReadyForWrites)
   else mret tt);;
  modify (with_controller (set_queue []));;
  s ← gets stream;
  if negb (WritableStreamHasOperationMarkedInflight s)
  then WritableStreamRejectPromisesInReactionToError
  else mret tt.

Definition WritableStreamDefaultControllerErrorIfNeeded (e : Value) : M unit :=
  s ← gets stream;
  if StreamState_eqb (_state s) writable
  then WritableStreamDefaultControllerError e
  else mret tt.

Definition WritableStreamDefaultControllerProcessClose : M unit :=
  WritableStreamMarkCloseRequestInflight;;
  DequeueValue;;
  q ← gets (fun w => _queue (controller w));
  assert (Nat.eqb (length q) 0) "queue must be empty once the final write record is dequeued";;
  PromiseInvokeOrNoop SinkClose TClose.

Definition WritableStreamDefaultControllerProcessWrite (chunk : Value) : M unit :=
  WritableStreamMarkFirstWriteRequestInflight;;
  PromiseInvokeOrNoop (SinkWrite chunk) TWrite.

Definition WritableStreamDefaultControllerAdvanceQueueIfNeeded : M unit :=
  s ← gets stream;
  c ← gets controller;
  let state := _state s in
  if StreamState_eqb state closed || StreamState_eqb state errored then mret tt
  else if negb (_started c) then mret tt
  else if is_set (_inflightWriteRequest s) then mret tt
  else if Nat.eqb (length (_queue c)) 0 then mret tt
  else
    match PeekQueueValue (_queue c) with
    | Some QClose => WritableStreamDefaultControllerProcessClose
    | Some (QChunk chunk) => WritableStreamDefaultControllerProcessWrite chunk
    | None =>
        e ← new_error TypeError "Cannot read property 'chunk' of undefined";
        throw e
    end.

Definition WritableStreamDefaultControllerClose : M unit :=
  EnqueueValueWithSize QClose nzero;;
  WritableStreamDefaultControllerAdvanceQueueIfNeeded.

(** The strategy's [size] is taken to be a function of the chunk that
    returns a number or throws; it does not call back into the stream.  Each
    of the two [catch] blocks of the source ends with [return]. *)
Definition WritableStreamDefaultControllerWrite (chunk : Value) : M unit :=
  c ← gets controller;
  let sized :=
    match _strategySize c with
    | Some strategySize => strategySize chunk
    | None => Normal none
    end in
  match sized with
  | Throw chunkSizeE => WritableStreamDefaultControllerErrorIfNeeded chunkSizeE
  | Normal chunkSize =>
      let writeRecord := QChunk chunk in
      enqueued ← try_catch
        (EnqueueValueWithSize writeRecord chunkSize;; mret true)
        (fun enqueueE =>
           WritableStreamDefaultControllerErrorIfNeeded enqueueE;; mret false);
      if enqueued : bool then
        s ← gets stream;
        (if StreamState_eqb (_state s) writable && negb (is_set (_closeRequest s)) then
           c ← gets controller;
           let backpressure := WritableStreamDefaultControllerGetBackpressure c in
           WritableStreamUpdateBackpressure backpressure
         else mret tt);;
        WritableStreamDefaultControllerAdvanceQueueIfNeeded
      else mret tt
  end.

(** [InvokeOrNoop(sink, 'start', [controller])] is synchronous: what
    [sink.start] throws is thrown by the constructor; otherwise the result is
    wrapped in a promise, whose settlement is the task [TStart]. *)
Definition WritableStreamDefaultControllerStart : M unit :=
  c ← gets controller;
  modify (with_sinkCalls (fun l => l ++ [SinkStart])%list);;
  match sink_start (_underlyingSink c) with
  | Throw e => throw e
  | Normal _ => modify (with_tasks (fun l => l ++ [TStart])%list)
  end.

(** The continuations attached with [.then] by
    [WritableStreamDefaultControllerStart], [...ProcessWrite],
    [...ProcessClose], and the forwarding of the sink's abort promise. *)
Definition start_fulfilled : M unit :=
  modify (with_controller (set_started true));;
  WritableStreamDefaultControllerAdvanceQueueIfNeeded.

Definition start_rejected (r : Value) : M unit :=
  WritableStreamDefaultControllerErrorIfNeeded r.

Definition sinkWrite_fulfilled : M unit :=
  WritableStreamFinishInflightWrite;;
  s ← gets stream;
  let state := _state s in
  if StreamState_eqb state errored then mret tt
  else
    assert (StreamState_eqb state writable) no_message;;
    DequeueValue;;
    (if negb (is_set (_closeRequest s)) then
       c ← gets controller;
       let backpressure := WritableStreamDefaultControllerGetBackpressure c in
       WritableStreamUpdateBackpressure backpressure
     else mret tt);;
    WritableStreamDefaultControllerAdvanceQueueIfNeeded.

Definition sinkWrite_rejected (reason : Value) : M unit :=
  s ← gets stream;
  let wasErrored := StreamState_eqb (_state s) errored in
  WritableStreamFinishInflightWriteWithError reason;;
  s ← gets stream;
  assert (StreamState_eqb (_state s) errored) no_message;;
  if negb wasErrored then modify (with_controller (set_queue [])) else mret tt.

Definition sinkClose_fulfilled : M unit := WritableStreamFinishInflightClose.

Definition sinkClose_rejected (reason : Value) : M unit :=
  WritableStreamFinishInflightCloseWithError reason.

Definition sinkAbort_settled (p : pid) (fwd : option pid) (o : Outcome) : M unit :=
  let st := match o with fulfils => Fulfilled VUndefined | rejects r => Rejected r end in
  settle p st;;
  match fwd with
  | Some q => settle q st
  | None => mret tt
  end.

(** [controller.error(e)] *)
Definition WritableStreamDefaultController_error (e : Value) : M unit :=
  s ← gets stream;
  let state := _state s in
  if StreamState_eqb state closed || StreamState_eqb state errored then
    err ← new_error TypeError
      (String.append "The stream is "
         (String.append (StreamState_name state) " and so cannot be errored"));
    throw err
  else WritableStreamDefaultControllerError e.


(** *** Abstract operations for the WritableStreamDefaultWriter
        (lines 529-685) *)

Definition WritableStreamDefaultWriterAbort (x : wid) (reason : Value) : M pid :=
  wr ← the_writer x;
  assert (_ownerWritableStream wr) no_message;;
  WritableStreamAbort reason.

Definition WritableStreamDefaultWriterClose (x : wid) : M pid :=
  wr ← the_writer x;
  assert (_ownerWritableStream wr) no_message;;
  s ← gets stream;
  let state := _state s in
  if StreamState_eqb state closed || StreamState_eqb state errored then
    e ← new_error TypeError
      (String.append "The stream (in "
         (String.append (StreamState_name state)
            " state) is not in the writable state and cannot be closed"));
    Promise_reject e
  else if is_set (_pendingAbortRequest s) then
    e ← new_error TypeError "Aborted";
    Promise_reject e
  else
    assert (StreamState_eqb state writable) no_message;;
    assert (negb (is_set (_closeRequest s))) no_message;;
    promise ← new_promise Pending;
    modify (with_stream (set_closeRequest (Some {| rq_promise := promise |})));;
    (match _backpressure s with
     | Some true => defaultWriterReadyPromiseResolve x
     | _ => mret tt
     end);;
    WritableStreamDefaultControllerClose;;
    mret promise.

Definition WritableStreamDefaultWriterCloseWithErrorPropagation (x : wid) : M pid :=
  wr ← the_writer x;
  assert (_ownerWritableStream wr) no_message;;
  s ← gets stream;
  let state := _state s in
  if (StreamState_eqb state writable && is_set (_closeRequest s))
     || StreamState_eqb state closed then
    Promise_resolve VUndefined
  else if StreamState_eqb state errored then
    Promise_reject (_storedError s)
  else
    assert (StreamState_eqb state writable) no_message;;
    WritableStreamDefaultWriterClose x.

(** The getter yields [null] or a number; [None] stands for [null]. *)
Definition WritableStreamDefaultWriterGetDesiredSize (w : World) : option num :=
  let s := stream w in
  let state := _state s in
  if StreamState_eqb state errored || is_set (_pendingAbortRequest s) then None
  else if StreamState_eqb state closed then Some nzero
  else Some (WritableStreamDefaultControllerGetDesiredSize (controller w)).

Definition option_nat_eqb (a b : option nat) : bool :=
  match a, b with
  | Some x, Some y => Nat.eqb x y
  | None, None => true
  | _, _ => false
  end.

Definition WritableStreamDefaultWriterRelease (x : wid) : M unit :=
  wr ← the_writer x;
  assert (_ownerWritableStream wr) no_message;;
  s ← gets stream;
  assert (option_nat_eqb (_writer s) (Some x)) no_message;;
  releasedError ← new_error TypeError
    "Writer was released and can no longer be used to monitor the stream's closedness";
  let state := _state s in
  WritableStreamDefaultWriterEnsureReadyPromiseRejectedWith releasedError None;;
  (if StreamState_eqb state writable || WritableStreamHasOperationMarkedInflight s
   then defaultWriterClosedPromiseReject x releasedError
   else defaultWriterClosedPromiseResetToRejected x releasedError);;
  modify (with_stream (set_writer None));;
  update_writer x (set_owner false).

Definition WritableStreamDefaultWriterWrite (x : wid) (chunk : Value) : M pid :=
  wr ← the_writer x;
  assert (_ownerWritableStream wr) no_message;;
  s ← gets stream;
  assert (negb (is_set (_closeRequest s))) no_message;;
  let state := _state s in
  if StreamState_eqb state closed || StreamState_eqb state errored then
    e ← new_error TypeError
      (String.append "The stream (in "
         (String.append (StreamState_name state)
            " state) is not in the writable state and cannot be written to"));
    Promise_reject e
  else if is_set (_pendingAbortRequest s) then
    e ← new_error TypeError "Aborted";
    Promise_reject e
  else
    assert (StreamState_eqb state writable) no_message;;
    promise ← WritableStreamAddWriteRequest;
    WritableStreamDefaultControllerWrite chunk;;
    mret promise.

(** *** class WritableStreamDefaultWriter (lines 396-527)

    The brand checks ([IsWritableStream], [IsWritableStreamDefaultWriter])
    hold by typing: a method is only ever applied to an object of its
    class. *)

(** [new WritableStreamDefaultWriter(stream)].  The new object [this] is
    added to the store first; its two promise fields are assigned by the
    initialisers before the constructor returns, and nothing can throw in
    between. *)
Definition WritableStreamDefaultWriter_constructor : M wid :=
  s ← gets stream;
  if IsWritableStreamLocked s then
    e ← new_error TypeError
      "This stream has already been locked for exclusive writing by another writer";
    throw e
  else
    this ← gets (fun w => length (writers w));
    modify (with_writers (fun l => l ++
      [{| _ownerWritableStream := true;
          _readyPromise := 0; _readyPromise_resolve := None; _readyPromise_reject := None;
          _closedPromise := 0; _closedPromise_resolve := None; _closedPromise_reject := None
       |}])%list);;
    modify (with_stream (set_writer (Some this)));;
    let state := _state s in
    (if StreamState_eqb state writable then
       (if is_set (_pendingAbortRequest s) then
          defaultWriterReadyPromiseInitializeAsRejected this (_storedError s)
        else if negb (is_set (_closeRequest s))
                && match _backpressure s with Some true => true | _ => false end then
          defaultWriterReadyPromiseInitialize this
        else
          defaultWriterReadyPromiseInitializeAsResolved this);;
       defaultWriterClosedPromiseInitialize this
     else if StreamState_eqb state closed then
       defaultWriterReadyPromiseInitializeAsResolved this;;
       defaultWriterClosedPromiseInitializeAsResolved this
     else
       assert (StreamState_eqb state errored) "state must be errored";;
       let storedError := _storedError s in
       defaultWriterReadyPromiseInitializeAsRejected this storedError;;
       defaultWriterClosedPromiseInitializeAsRejected this storedError);;
    mret this.

Definition WritableStreamDefaultWriter_closed (x : wid) : M pid :=
  wr ← the_writer x;
  mret (_closedPromise wr).

Definition WritableStreamDefaultWriter_desiredSize (x : wid) : M (option num) :=
  wr ← the_writer x;
  if negb (_ownerWritableStream wr) then
    e ← defaultWriterLockException "desiredSize";
    throw e
  else gets WritableStreamDefaultWriterGetDesiredSize.

Definition WritableStreamDefaultWriter_ready (x : wid) : M pid :=
  wr ← the_writer x;
  mret (_readyPromise wr).

Definition WritableStreamDefaultWriter_abort (x : wid) (reason : Value) : M pid :=
  wr ← the_writer x;
  if negb (_ownerWritableStream wr) then
    e ← defaultWriterLockException "abort";
    Promise_reject e
  else WritableStreamDefaultWriterAbort x reason.

Definition WritableStreamDefaultWriter_close (x : wid) : M pid :=
  wr ← the_writer x;
  if negb (_ownerWritableStream wr) then
    e ← defaultWriterLockException "close";
    Promise_reject e
  else
    s ← gets stream;
    if is_set (_closeRequest s) then
      e ← new_error TypeError "cannot close an already-closing stream";
      Promise_reject e
    else WritableStreamDefaultWriterClose x.

Definition WritableStreamDefaultWriter_releaseLock (x : wid) : M unit :=
  wr ← the_writer x;
  if negb (_ownerWritableStream wr) then mret tt
  else
    s ← gets stream;
    assert (is_set (_writer s)) no_message;;
    WritableStreamDefaultWriterRelease x.

Definition WritableStreamDefaultWriter_write (x : wid) (chunk : Value) : M pid :=
  wr ← the_writer x;
  if negb (_ownerWritableStream wr) then
    e ← defaultWriterLockException "write to";
    Promise_reject e
  else
    s ← gets stream;
    if is_set (_closeRequest s) then
      e ← new_error TypeError "Cannot write to an already-closed stream";
      Promise_reject e
    else WritableStreamDefaultWriterWrite x chunk.

(** *** class WritableStream (lines 8-78) *)

Definition AcquireWritableStreamDefaultWriter : M wid :=
  WritableStreamDefaultWriter_constructor.

(** Modelled from the spec: [ValidateAndNormalizeQueuingStrategy] of
    [helpers.js], which is not among the sources.  "Validates hwm is a
    non-negative finite number; validates sizeFn is callable or absent."  A
    [size] of the embedding is a function or absent. *)
Definition ValidateAndNormalizeQueuingStrategy
    (size : option (Value -> Completion num)) (highWaterMark : num)
    : M (option (Value -> Completion num) * num) :=
  if nfinite_nonneg highWaterMark then mret (size, highWaterMark)
  else e ← new_error RangeError "Invalid highWaterMark"; throw e.

(** The object [this] as lines 10-39 and 702-703 leave it, before the checks
    of the two constructors. *)
Definition blank_world (underlyingSink : Sink) (highWaterMark : num) : World :=
  {| stream :=
       {| _state := writable; _storedError := VUndefined; _writer := None;
          _writeRequests := []; _inflightWriteRequest := None;
          _closeRequest := None; _inflightCloseRequest := None;
          _pendingAbortRequest := None; _backpressure := None |};
     controller :=
       {| _underlyingSink := underlyingSink; _queue := []; _started := false;
          _strategySize := None; _strategyHWM := highWaterMark |};
     writers := []; promises := []; tasks := []; sinkCalls := []; nextError := 0 |}.

Definition set_strategy (size : option (Value -> Completion num)) (hwm : num)
    (c : WritableStreamDefaultController) : WritableStreamDefaultController :=
  {| _underlyingSink := _underlyingSink c; _queue := _queue c; _started := _started c;
     _strategySize := size; _strategyHWM := hwm |}.

Definition WritableStreamDefaultController_constructor
    (size : option (Value -> Completion num)) (highWaterMark : num) : M unit :=
  normalizedStrategy ← ValidateAndNormalizeQueuingStrategy size highWaterMark;
  modify (with_controller (set_strategy (fst normalizedStrategy) (snd normalizedStrategy)));;
  c ← gets controller;
  let backpressure := WritableStreamDefaultControllerGetBackpressure c in
  WritableStreamUpdateBackpressure backpressure.

(** [new WritableStream(underlyingSink, { size, highWaterMark = 1 })];
    [highWaterMark] is [None] when the caller leaves it out. *)
Definition WritableStream_constructor (underlyingSink : Sink)
    (size : option (Value -> Completion num)) (highWaterMark : option num)
    : World * Completion unit :=
  let highWaterMark := match highWaterMark with Some h => h | None => none end in
  (let type := sink_type underlyingSink in
   match type with
   | VUndefined =>
       WritableStreamDefaultController_constructor size highWaterMark;;
       WritableStreamDefaultControllerStart
   | _ =>
       e ← new_error RangeError "Invalid type is specified";
       throw e
   end) (blank_world underlyingSink highWaterMark).

Definition WritableStream_locked : M bool :=
  s ← gets stream;
  mret (IsWritableStreamLocked s).

Definition WritableStream_abort (reason : Value) : M pid :=
  s ← gets stream;
  if IsWritableStreamLocked s then
    e ← new_error TypeError "Cannot abort a stream that already has a writer";
    Promise_reject e
  else WritableStreamAbort reason.

Definition WritableStream_getWriter : M wid := AcquireWritableStreamDefaultWriter.

(** ** The transition system

    What the environment can do to a stream: call a method of the stream, of
    one of its writers or of its controller, call one of the abstract
    operations that the module exports, or settle the promise of a pending
    sink operation. *)

Inductive Label :=
| stream_locked
| stream_abort (reason : Value)
| stream_getWriter
| writer_closed (x : wid)
| writer_desiredSize (x : wid)
| writer_ready (x : wid)
| writer_abort (x : wid) (reason : Value)
| writer_close (x : wid)
| writer_releaseLock (x : wid)
| writer_write (x : wid) (chunk : Value)
| controller_error (e : Value)
| sink_settles (i : nat) (o : Outcome)
| op_WritableStreamAbort (reason : Value)
| op_WritableStreamDefaultControllerError (e : Value)
| op_WritableStreamDefaultWriterCloseWithErrorPropagation (x : wid)
| op_WritableStreamDefaultWriterRelease (x : wid)
| op_WritableStreamDefaultWriterWrite (x : wid) (chunk : Value).

Inductive Result :=
| RUnit
| RBool (b : bool)
| RPromise (p : pid)
| RWriter (x : wid)
| RSize (n : option num).

Definition returning {A} (f : A -> Result) (m : M A) : M Result := a ← m; mret (f a).

(** The task [i] is taken off the list and its continuation runs. *)
Definition settle_task (i : nat) (o : Outcome) : M unit :=
  ts ← gets tasks;
  match ts !! i with
  | None => mret tt
  | Some t =>
      modify (with_tasks (fun l => take i l ++ drop (S i) l)%list);;
      match t, o with
      | TStart, fulfils => start_fulfilled
      | TStart, rejects r => start_rejected r
      | TWrite, fulfils => sinkWrite_fulfilled
      | TWrite, rejects r => sinkWrite_rejected r
      | TClose, fulfils => sinkClose_fulfilled
      | TClose, rejects r => sinkClose_rejected r
      | TAbort p fwd, o => sinkAbort_settled p fwd o
      end
  end.

Definition run (l : Label) : M Result :=
  match l with
  | stream_locked => returning RBool WritableStream_locked
  | stream_abort reason => returning RPromise (WritableStream_abort reason)
  | stream_getWriter => returning RWriter WritableStream_getWriter
  | writer_closed x => returning RPromise (WritableStreamDefaultWriter_closed x)
  | writer_desiredSize x => returning RSize (WritableStreamDefaultWriter_desiredSize x)
  | writer_ready x => returning RPromise (WritableStreamDefaultWriter_ready x)
  | writer_abort x reason => returning RPromise (WritableStreamDefaultWriter_abort x reason)
  | writer_close x => returning RPromise (WritableStreamDefaultWriter_close x)
  | writer_releaseLock x => returning (fun _ => RUnit) (WritableStreamDefaultWriter_releaseLock x)
  | writer_write x chunk => returning RPromise (WritableStreamDefaultWriter_write x chunk)
  | controller_error e => returning (fun _ => RUnit) (WritableStreamDefaultController_error e)
  | sink_settles i o => returning (fun _ => RUnit) (settle_task i o)
  | op_WritableStreamAbort reason => returning RPromise (WritableStreamAbort reason)
  | op_WritableStreamDefaultControllerError e =>
      returning (fun _ => RUnit) (WritableStreamDefaultControllerError e)
  | op_WritableStreamDefaultWriterCloseWithErrorPropagation x =>
      returning RPromise (WritableStreamDefaultWriterCloseWithErrorPropagation x)
  | op_WritableStreamDefaultWriterRelease x =>
      returning (fun _ => RUnit) (WritableStreamDefaultWriterRelease x)
  | op_WritableStreamDefaultWriterWrite x chunk =>
      returning RPromise (WritableStreamDefaultWriterWrite x chunk)
  end.

(** A value the environment can pass: any value but an error object that the
    module has not made yet. *)
Definition value_known (w : World) (v : Value) : bool :=
  match v with
  | VError serial _ _ => Nat.ltb serial (nextError w)
  | _ => true
  end.

(** The environment only holds writers that exist and only settles tasks
    that are pending. *)
Definition enabled (l : Label) (w : World) : bool :=
  let writer_exists x := Nat.ltb x (length (writers w)) in
  match l with
  | stream_locked | stream_getWriter => true
  | stream_abort v | controller_error v | op_WritableStreamAbort v
  | op_WritableStreamDefaultControllerError v => value_known w v
  | writer_closed x | writer_desiredSize x | writer_ready x | writer_close x
  | writer_releaseLock x | op_WritableStreamDefaultWriterCloseWithErrorPropagation x
  | op_WritableStreamDefaultWriterRelease x => writer_exists x
  | writer_abort x v | writer_write x v | op_WritableStreamDefaultWriterWrite x v =>
      writer_exists x && value_known w v
  | sink_settles i o =>
      Nat.ltb i (length (tasks w))
      && match o with fulfils => true | rejects r => value_known w r end
  end.

Definition step (l : Label) (w : World) : World := fst (run l w).

Fixpoint steps (ls : list Label) (w : World) : World :=
  match ls with
  | [] => w
  | l :: ls' => steps ls' (step l w)
  end.

Fixpoint all_enabled (ls : list Label) (w : World) : bool :=
  match ls with
  | [] => true
  | l :: ls' => enabled l w && all_enabled ls' (step l w)
  end.

Inductive reachable : World -> Prop :=
| reachable_new underlyingSink size highWaterMark w :
    WritableStream_constructor underlyingSink size highWaterMark = (w, Normal tt) ->
    reachable w
| reachable_step l w :
    reachable w -> enabled l w = true -> reachable (step l w).

End Model.

(** * Properties *)

(** ** Reasoning about computations

    [wp m Q E w]: running [m] in the world [w] ends in a world that satisfies
    [Q] when [m] returns and [E] when [m] throws. *)

Section WeakestPrecondition.
Context {num : Type} {JSN : JSNumber num}.

Definition wp {A} (m : M (num := num) A) (Q : A -> World -> Prop) (E : World -> Prop)
    (w : World) : Prop :=
  match m w with
  | (w', Normal a) => Q a w'
  | (w', Throw _) => E w'
  end.

Lemma wp_bind {A B} (m : M A) (f : A -> M B) Q E w :
  wp m (fun a w' => wp (f a) Q E w') E w -> wp (m ≫= f) Q E w.
Proof. unfold wp, mbind, M_bind. destruct (m w) as [w' [a|e]]; auto. Qed.

Lemma wp_ret {A} (a : A) Q E w : Q a w -> wp (mret a) Q E w.
Proof. auto. Qed.

Lemma wp_gets {A} (g : World -> A) Q E w : Q (g w) w -> wp (gets g) Q E w.
Proof. auto. Qed.

Lemma wp_modify (g : World -> World) Q E w : Q tt (g w) -> wp (modify g) Q E w.
Proof. auto. Qed.

Lemma wp_throw {A} e (Q : A -> World -> Prop) E w : E w -> wp (throw e) Q E w.
Proof. auto. Qed.

Lemma wp_new_error k msg Q E w :
  Q (VError (nextError w) k msg) (with_nextError S w) -> wp (new_error k msg) Q E w.
Proof. auto. Qed.

Lemma wp_assert (c : bool) msg Q E w :
  (c = true -> Q tt w) -> (c = false -> E (with_nextError S w)) -> wp (assert c msg) Q E w.
Proof. destruct c; unfold wp; simpl; auto. Qed.

Lemma wp_new_promise st Q E w :
  Q (length (promises w)) (with_promises (fun h => h ++ [st]) w) ->
  wp (new_promise st) Q E w.
Proof. auto. Qed.

(** Settling a promise, when the property at hand does not look at the
    promise store. *)
Lemma wp_settle_any p st Q E w :
  (forall ps', Q tt (with_promises (fun _ => ps') w)) -> wp (settle p st) Q E w.
Proof.
  intros H. unfold wp, settle.
  destruct (promises w !! p) as [[]|]; try (specialize (H (promises w)); destruct w; exact H).
  apply (H (<[p:=st]> (promises w))).
Qed.

Lemma wp_for_each_settle_any (l : list Request) body Q E w :
  (forall r, exists p st, body r = settle p st) ->
  (forall ps', Q tt (with_promises (fun _ => ps') w)) -> wp (for_each l body) Q E w.
Proof.
  intros Hb. revert w. induction l as [|r l IH]; intros w H; simpl.
  - specialize (H (promises w)); destruct w; exact H.
  - apply wp_bind. destruct (Hb r) as (p & st & ->). apply wp_settle_any.
    intros ps'. apply IH. intros ps''. apply H.
Qed.

Lemma wp_the_writer x Q E w :
  (forall wr, writers w !! x = Some wr -> Q wr w) ->
  (writers w !! x = None -> E w) ->
  wp (the_writer x) Q E w.
Proof. unfold wp, the_writer. destruct (writers w !! x); auto. Qed.

Lemma wp_try_catch {A} (m : M A) h Q E w :
  wp m Q (fun w' => forall e, wp (h e) Q E w') w -> wp (try_catch m h) Q E w.
Proof.
  unfold wp, try_catch. destruct (m w) as [w' [a|e]]; auto. intros H; apply (H e).
Qed.

(** From [wp] back to the outcome of a run. *)
Lemma wp_run {A} (m : M A) (P : World -> Prop) w :
  wp m (fun _ w' => P w') P w -> P (fst (m w)).
Proof. unfold wp. destruct (m w) as [w' [a|e]]; auto. Qed.

Lemma wp_normal {A} (m : M A) Q E w w' a :
  wp m Q E w -> m w = (w', Normal a) -> Q a w'.
Proof. unfold wp. intros H Heq. now rewrite Heq in H. Qed.

End WeakestPrecondition.

(** The fields of a world, computed after each update. *)
Ltac world_simpl :=
  cbv beta iota zeta delta
    [with_stream with_controller with_writers with_promises with_tasks with_sinkCalls
     with_nextError set_state set_storedError set_writer set_writeRequests
     set_inflightWriteRequest set_closeRequest set_inflightCloseRequest
     set_pendingAbortRequest set_backpressure set_queue set_started set_strategy
     stream controller writers promises tasks sinkCalls nextError
     _state _storedError _writer _writeRequests _inflightWriteRequest _closeRequest
     _inflightCloseRequest _pendingAbortRequest _backpressure
     _underlyingSink _queue _started _strategySize _strategyHWM
     StreamState_eqb is_set negb andb orb option_bool_eqb Bool.eqb
     IsWritableStreamLocked WritableStreamIsReadyForWrites
     WritableStreamHasOperationMarkedInflight returning
     call_resolve call_reject Promise_resolve Promise_reject update_writer
     PromiseInvokeOrNoop defaultWriterLockException defaultWriterBrandCheckException].

Ltac destruct_world w :=
  destruct w as [[?st ?se ?wr ?wrq ?ifw ?cr ?ifc ?par ?bp]
                 [?sk ?q ?started ?ssz ?hwm] ?ws ?ps ?ts ?sc ?ne];
  simpl in *.

Lemma lookup_snoc_last {A} (l : list A) (a : A) : (l ++ [a]) !! length l = Some a.
Proof. rewrite lookup_app_r by lia. now rewrite Nat.sub_diag. Qed.

(** Reading an object that was just added to a store. *)
Ltac store_lookup :=
  repeat first
    [ rewrite list_lookup_alter_eq
    | rewrite lookup_snoc_last
    | rewrite lookup_app_l by (rewrite ?length_app; simpl; lia) ];
  simpl.

Ltac head_of t := lazymatch t with ?f _ => head_of f | _ => t end.

(** Case analysis on the innermost scrutinee of [x]. *)
Ltac case_on x :=
  lazymatch x with
  | context [match ?y with _ => _ end] => case_on y
  | _ => destruct x eqn:?
  end.

(** One step of symbolic execution, with the store of promises abstracted. *)
Ltac wp_head m :=
  lazymatch m with
  | mbind _ _ => apply wp_bind
  | mret _ => apply wp_ret
  | gets _ => apply wp_gets
  | modify _ => apply wp_modify
  | throw _ => apply wp_throw
  | new_error _ _ => apply wp_new_error
  | new_promise _ => apply wp_new_promise
  | assert ?c _ =>
      lazymatch c with
      | context [match ?y with _ => _ end] => case_on y
      | _ => apply wp_assert; intros ?; try discriminate
      end
  | settle _ _ => apply wp_settle_any; intros ?
  | for_each _ _ =>
      apply wp_for_each_settle_any; [intros ?; eexists _, _; reflexivity | intros ?]
  | the_writer _ => apply wp_the_writer; [intros ? ? | intros ?]
  | try_catch _ _ => apply wp_try_catch
  | match ?x with _ => _ end => case_on x
  | ?f => let h := head_of f in unfold h
  end.

Ltac wp_step :=
  world_simpl;
  lazymatch goal with
  | |- wp ?m _ _ _ => wp_head m
  | |- forall _, _ => intros ?
  end.

Ltac wp_go := repeat wp_step.

(** ** The state never leaves [closed] or [errored] *)

Section FinalStates.
Context {num : Type} {JSN : JSNumber num}.

(** A closed stream has no pending abort request: the request is only
    recorded on a writable stream, and the only transition to [closed], in
    [WritableStreamFinishInflightClose], is taken when there is none. *)
Definition no_abort_when_closed (w : World (num := num)) : Prop :=
  _state (stream w) = closed -> _pendingAbortRequest (stream w) = None.

Lemma no_abort_when_closed_step l (w : World (num := num)) :
  no_abort_when_closed w ->
  no_abort_when_closed (step l w)
  /\ (_state (stream w) <> writable -> _state (stream (step l w)) = _state (stream w)).
Proof.
  unfold step. intros H.
  apply (wp_run (run l) (fun w' =>
    no_abort_when_closed w'
    /\ (_state (stream w) <> writable -> _state (stream w') = _state (stream w)))).
  unfold no_abort_when_closed in *. destruct_world w.
  destruct l; unfold run;
    wp_go; world_simpl; split; intros; try congruence; try discriminate; auto;
    try (intuition congruence).
Qed.

Lemma constructor_writable underlyingSink size highWaterMark (w : World (num := num)) :
  WritableStream_constructor underlyingSink size highWaterMark = (w, Normal tt) ->
  _state (stream w) = writable /\ _writer (stream w) = None
  /\ _closeRequest (stream w) = None /\ _inflightCloseRequest (stream w) = None
  /\ _pendingAbortRequest (stream w) = None
  /\ _queue (controller w) = []
  /\ _backpressure (stream w) = Some (nle0 (nsub (_strategyHWM (controller w)) nzero)).
Proof.
  unfold WritableStream_constructor.
  match goal with |- ?m ?w0 = _ -> _ =>
    intros Hrun;
    refine (wp_normal m (fun _ w' => _) (fun _ => True) w0 w tt _ Hrun); clear Hrun
  end.
  unfold blank_world.
  destruct (sink_type underlyingSink);
    unfold WritableStreamDefaultController_constructor, ValidateAndNormalizeQueuingStrategy,
      WritableStreamDefaultControllerStart, WritableStreamUpdateBackpressure;
    wp_go; world_simpl; auto.
  all: unfold WritableStreamDefaultControllerGetBackpressure,
         WritableStreamDefaultControllerGetDesiredSize, GetTotalQueueSize; simpl;
       repeat split; reflexivity.
Qed.

Lemma reachable_no_abort_when_closed (w : World (num := num)) :
  reachable w -> no_abort_when_closed w.
Proof.
  induction 1 as [sink size hwm w Hnew | l w Hw IH Hen].
  - intros Hc. apply constructor_writable in Hnew as [Hst _]. congruence.
  - now apply no_abort_when_closed_step.
Qed.

Lemma no_abort_when_closed_steps ls (w : World (num := num)) :
  no_abort_when_closed w ->
  _state (stream w) <> writable -> _state (stream (steps ls w)) = _state (stream w).
Proof.
  revert w. induction ls as [|l ls IH]; intros w Hinv Hst; simpl; [reflexivity |].
  destruct (no_abort_when_closed_step l w Hinv) as [Hinv' Hstep].
  rewrite IH by (rewrite ?Hstep; auto). auto.
Qed.

(** C1: once a reachable stream is closed or errored, no operation changes
    its state (a method of the stream, of a writer or of the controller, an
    exported abstract operation, the settlement of a sink operation), and no
    sequence of operations does. *)
Theorem C1_closed_and_errored_are_final (w : World (num := num)) :
  reachable w ->
  _state (stream w) <> writable ->
  (forall l, _state (stream (step l w)) = _state (stream w))
  /\ (forall ls, _state (stream (steps ls w)) = _state (stream w)).
Proof.
  intros Hw Hst. apply reachable_no_abort_when_closed in Hw. split.
  - intros l. now apply no_abort_when_closed_step.
  - intros ls. now apply no_abort_when_closed_steps.
Qed.

(** C9: the [desiredSize] getter of a writer of a reachable stream.  A writer
    that holds its lock reads [null] when the stream is errored or has a
    pending abort request, 0 when it is closed, and the high-water mark minus
    the total size of the queue otherwise; the stream is left as it was.  A
    released writer gets a [TypeError] thrown. *)
Theorem C9_desiredSize (w : World (num := num)) (x : nat) (wr : Writer) :
  reachable w ->
  writers w !! x = Some wr ->
  (_ownerWritableStream wr = true ->
   exists size,
     WritableStreamDefaultWriter_desiredSize x w = (w, Normal size)
     /\ (_state (stream w) = errored \/ _pendingAbortRequest (stream w) <> None ->
         size = None)
     /\ (_state (stream w) = closed -> size = Some nzero)
     /\ (_state (stream w) = writable -> _pendingAbortRequest (stream w) = None ->
         size = Some (nsub (_strategyHWM (controller w))
                           (GetTotalQueueSize (_queue (controller w))))))
  /\ (_ownerWritableStream wr = false ->
      exists w',
        WritableStreamDefaultWriter_desiredSize x w
        = (w', Throw (VError (nextError w) TypeError
                        "Cannot desiredSize a stream using a released writer"))
        /\ stream w' = stream w /\ controller w' = controller w).
Proof.
  intros Hreach Hx. apply reachable_no_abort_when_closed in Hreach.
  unfold no_abort_when_closed in Hreach.
  unfold WritableStreamDefaultWriter_desiredSize, the_writer, mbind, M_bind.
  rewrite Hx. split; intros Hown; rewrite Hown; cbn.
  - eexists. split; [reflexivity |].
    unfold WritableStreamDefaultWriterGetDesiredSize.
    destruct (_state (stream w)) eqn:Hst; cbn.
    + destruct (_pendingAbortRequest (stream w)) eqn:Hpar; cbn;
        repeat split; intros; try congruence; intuition congruence.
    + rewrite (Hreach eq_refl). cbn.
      repeat split; intros; try congruence; intuition congruence.
    + repeat split; intros; try congruence; intuition congruence.
  - eexists. split; [reflexivity |]. split; reflexivity.
Qed.

End FinalStates.

(** ** Acquiring a writer *)

Section WriterConstruction.
Context {num : Type} {JSN : JSNumber num}.

(** [new WritableStreamDefaultWriter(stream)] on a stream without writer
    returns a new writer object, attaches it to the stream, and initialises
    its two promises by the state of the stream.  On a writable stream
    without pending abort the ready promise is decided by the fields
    [_closeRequest] and [_backpressure] alone; the close request in flight
    is not looked at. *)
Lemma writer_construction (w : World (num := num)) :
  _writer (stream w) = None ->
  exists w' wr,
    WritableStreamDefaultWriter_constructor w = (w', Normal (length (writers w)))
    /\ _writer (stream w') = Some (length (writers w))
    /\ writers w' !! length (writers w) = Some wr
    /\ _ownerWritableStream wr = true
    /\ let s := stream w in
       let ready := promises w' !! _readyPromise wr in
       let closed_ := promises w' !! _closedPromise wr in
       match _state s with
       | writable =>
           closed_ = Some Pending
           /\ (_pendingAbortRequest s <> None -> ready = Some (Rejected (_storedError s)))
           /\ (_pendingAbortRequest s = None ->
               _backpressure s = Some true -> _closeRequest s = None ->
               ready = Some Pending)
           /\ (_pendingAbortRequest s = None ->
               _backpressure s <> Some true \/ _closeRequest s <> None ->
               ready = Some (Fulfilled VUndefined))
       | closed =>
           ready = Some (Fulfilled VUndefined) /\ closed_ = Some (Fulfilled VUndefined)
       | errored =>
           ready = Some (Rejected (_storedError s))
           /\ closed_ = Some (Rejected (_storedError s))
       end.
Proof.
  intros Hw. destruct_world w. subst.
  unfold WritableStreamDefaultWriter_constructor.
  destruct st; [destruct par; [| destruct cr; [| destruct bp as [[|]|]]] | |];
    cbn; (eexists _, _; split; [reflexivity |]); cbn;
    (split; [reflexivity |]); store_lookup;
    (split; [reflexivity |]); (split; [reflexivity |]); cbn; store_lookup;
    repeat split; try reflexivity; try congruence; intuition congruence.
Qed.

End WriterConstruction.

(** ** Aborting *)

Section Abort.
Context {num : Type} {JSN : JSNumber num}.

(** C4, as amended.  [stream.abort(reason)] on a stream that has a writer
    returns a promise rejected with a new [TypeError], whatever the state of
    the stream.  Otherwise ([stream.abort] without writer, [writer.abort] of
    the writer that holds the lock) the call is [WritableStreamAbort], which
    returns a promise fulfilled with [undefined] on a closed stream, a
    promise rejected with the stored error on an errored stream, and, on a
    writable stream with a pending abort request, a promise rejected with a
    [TypeError] "Aborted" made by this very call (its serial number is the
    one no error object had before).  None of these calls touches the stream
    or the controller. *)
Theorem C4_abort (w : World (num := num)) (reason : Value) :
  (_writer (stream w) <> None ->
   exists w',
     WritableStream_abort reason w = (w', Normal (length (promises w)))
     /\ promises w' !! length (promises w)
        = Some (Rejected (VError (nextError w) TypeError
                            "Cannot abort a stream that already has a writer"))
     /\ stream w' = stream w /\ controller w' = controller w)
  /\ (_writer (stream w) = None ->
      WritableStream_abort reason w = WritableStreamAbort reason w)
  /\ (forall x wr, writers w !! x = Some wr -> _ownerWritableStream wr = true ->
      WritableStreamDefaultWriter_abort x reason w = WritableStreamAbort reason w)
  /\ (_state (stream w) = closed ->
      exists w',
        WritableStreamAbort reason w = (w', Normal (length (promises w)))
        /\ promises w' !! length (promises w) = Some (Fulfilled VUndefined)
        /\ stream w' = stream w /\ controller w' = controller w)
  /\ (_state (stream w) = errored ->
      exists w',
        WritableStreamAbort reason w = (w', Normal (length (promises w)))
        /\ promises w' !! length (promises w) = Some (Rejected (_storedError (stream w)))
        /\ stream w' = stream w /\ controller w' = controller w)
  /\ (_state (stream w) = writable -> _pendingAbortRequest (stream w) <> None ->
      exists w',
        WritableStreamAbort reason w = (w', Normal (length (promises w)))
        /\ promises w' !! length (promises w)
           = Some (Rejected (VError (nextError w) TypeError "Aborted"))
        /\ nextError w' = S (nextError w)
        /\ stream w' = stream w /\ controller w' = controller w).
Proof.
  destruct_world w.
  split; [| split; [| split; [| split; [| split]]]].
  - intros Hw. destruct wr as [x|]; [| congruence].
    eexists. cbn. split; [reflexivity |]. cbn.
    split; [apply lookup_snoc_last | split; reflexivity].
  - intros ->. reflexivity.
  - intros x wr0 Hx Hown.
    unfold WritableStreamDefaultWriter_abort, WritableStreamDefaultWriterAbort,
      the_writer, mbind, M_bind; cbn.
    rewrite Hx, Hown. cbn. rewrite Hx, Hown. reflexivity.
  - intros ->. eexists. cbn. split; [reflexivity |]. cbn.
    split; [apply lookup_snoc_last | split; reflexivity].
  - intros ->. eexists. cbn. split; [reflexivity |]. cbn.
    split; [apply lookup_snoc_last | split; reflexivity].
  - intros -> Hpar. destruct par as [a|]; [| congruence].
    eexists. cbn. split; [reflexivity |]. cbn.
    split; [apply lookup_snoc_last | repeat split].
Qed.

End Abort.

(** ** The invariant of writable streams *)

(** *** Computations that cannot reopen a stream

    Once the state is [closed] or [errored] it stays so; the invariant below
    says nothing about such worlds, so what runs in one of them need not be
    executed. *)

Section FinalWorlds.
Context {num : Type} {JSN : JSNumber num}.
Abbreviation World := (World (num:=num)).
Abbreviation M := (M (num:=num)).

Definition is_final (w : World) : Prop := _state (stream w) <> writable.

Definition keeps_final {A} (m : M A) : Prop :=
  forall w, is_final w -> is_final (fst (m w)).

Lemma kf_bind {A B} (m : M A) (f : A -> M B) :
  keeps_final m -> (forall a, keeps_final (f a)) -> keeps_final (m ≫= f).
Proof.
  intros Hm Hf w Hw. specialize (Hm w Hw). unfold mbind, M_bind.
  destruct (m w) as [w' [a|e]]; simpl in *; [apply Hf; exact Hm | exact Hm].
Qed.
Lemma kf_ret {A} (a : A) : keeps_final (mret a : M A).
Proof. intros w Hw; exact Hw. Qed.
Lemma kf_gets {A} (g : World -> A) : keeps_final (gets g).
Proof. intros w Hw; exact Hw. Qed.
Lemma kf_throw {A} e : keeps_final (throw e : M A).
Proof. intros w Hw; exact Hw. Qed.
Lemma kf_modify (g : World -> World) :
  (forall w, is_final w -> is_final (g w)) -> keeps_final (modify g).
Proof. intros Hg w Hw; apply Hg, Hw. Qed.
Lemma kf_new_error k msg : keeps_final (new_error k msg).
Proof. intros w Hw; exact Hw. Qed.
Lemma kf_assert c msg : keeps_final (assert c msg).
Proof. intros w Hw. destruct c; exact Hw. Qed.
Lemma kf_new_promise st : keeps_final (new_promise st).
Proof. intros w Hw; exact Hw. Qed.
Lemma kf_settle p st : keeps_final (settle p st).
Proof. intros w Hw. unfold settle. destruct (promises w !! p) as [[]|]; exact Hw. Qed.
Lemma kf_the_writer x : keeps_final (the_writer x).
Proof. intros w Hw. unfold the_writer. destruct (writers w !! x); exact Hw. Qed.
Lemma kf_for_each {A} (l : list A) body :
  (forall a, keeps_final (body a)) -> keeps_final (for_each l body).
Proof.
  intros Hb. induction l as [|a l IH]; simpl; [apply kf_ret |].
  apply kf_bind; [apply Hb | intros _; exact IH].
Qed.
Lemma kf_try_catch {A} (m : M A) h :
  keeps_final m -> (forall e, keeps_final (h e)) -> keeps_final (try_catch m h).
Proof.
  intros Hm Hh w Hw. specialize (Hm w Hw). unfold try_catch.
  destruct (m w) as [w' [a|e]]; simpl in *; [exact Hm | apply Hh; exact Hm].
Qed.

Lemma wp_final {A} (m : M A) (Q : A -> World -> Prop) E w :
  keeps_final m -> is_final w ->
  (forall a w', is_final w' -> Q a w') -> (forall w', is_final w' -> E w') ->
  wp m Q E w.
Proof.
  intros Hm Hw HQ HE. specialize (Hm w Hw). unfold wp.
  destruct (m w) as [w' [a|e]]; simpl in *; auto.
Qed.
End FinalWorlds.

(** Syntax-directed proof of [keeps_final]. *)
Ltac kf_modify_tac :=
  let w := fresh "w" in
  intros w; destruct w as [[] ? ? ? ? ? ?]; unfold is_final; simpl; intros; congruence.

Ltac kf :=
  repeat (cbv zeta; lazymatch goal with
  | |- keeps_final (mbind _ _) => apply kf_bind; [| intros ?]
  | |- keeps_final (mret _) => apply kf_ret
  | |- keeps_final (gets _) => apply kf_gets
  | |- keeps_final (throw _) => apply kf_throw
  | |- keeps_final (modify _) => apply kf_modify; kf_modify_tac
  | |- keeps_final (new_error _ _) => apply kf_new_error
  | |- keeps_final (assert _ _) => apply kf_assert
  | |- keeps_final (new_promise _) => apply kf_new_promise
  | |- keeps_final (settle _ _) => apply kf_settle
  | |- keeps_final (the_writer _) => apply kf_the_writer
  | |- keeps_final (for_each _ _) => apply kf_for_each; intros ?
  | |- keeps_final (try_catch _ _) => apply kf_try_catch; [| intros ?]
  | |- keeps_final (match ?x with _ => _ end) => destruct x
  | |- keeps_final ?m => let h := head_of m in unfold h
  end).

(** *** The invariant

    While the stream is [writable]: no abort task of the sink is pending; the
    promises whose resolving functions the stream and the attached writer
    hold (write requests, the in-flight requests, the close request, the
    pending abort request, the writer's ready and closed promises) are
    pairwise distinct and pending; only the attached writer refers to the
    stream; the ready promise follows [_backpressure]; and, as long as no
    close was requested, [_backpressure] is what the controller computes
    from its queue. *)

Section Invariant.
Context {num : Type} {JSN : JSNumber num}.
Abbreviation World := (World (num:=num)).

Definition opt_list {A} (o : option A) : list A :=
  match o with Some a => [a] | None => [] end.

Definition pend (h : list PromiseState) (p : nat) : Prop := h !! p = Some Pending.

Definition writer_live (wr : Writer) : list nat :=
  opt_list (_readyPromise_resolve wr) ++ opt_list (_closedPromise_resolve wr).

Definition req_pid (o : option Request) : list nat :=
  match o with Some r => [rq_promise r] | None => [] end.

Definition abort_pid (o : option AbortRequest) : list nat :=
  match o with Some a => [ar_promise a] | None => [] end.

Definition stream_live (s : WritableStream) : list nat :=
  (rq_promise <$> _writeRequests s)
  ++ req_pid (_inflightWriteRequest s)
  ++ req_pid (_closeRequest s)
  ++ req_pid (_inflightCloseRequest s)
  ++ abort_pid (_pendingAbortRequest s).

Definition wf_writer (wr : Writer) : Prop :=
  _ownerWritableStream wr = true
  /\ _readyPromise_reject wr = _readyPromise_resolve wr
  /\ (forall p, _readyPromise_resolve wr = Some p -> p = _readyPromise wr)
  /\ _closedPromise_resolve wr = Some (_closedPromise wr)
  /\ _closedPromise_reject wr = Some (_closedPromise wr).

Definition ready_in_sync (w : World) (wr : Writer) : Prop :=
  _pendingAbortRequest (stream w) = None ->
  _closeRequest (stream w) = None -> _inflightCloseRequest (stream w) = None ->
  match _backpressure (stream w) with
  | Some true => _readyPromise_resolve wr = Some (_readyPromise wr)
  | _ => _readyPromise_resolve wr = None
         /\ promises w !! _readyPromise wr = Some (Fulfilled VUndefined)
  end.

(** What holds of the writer that is attached, and the promises owned by it
    and by the stream. *)
Definition attached_ok (w : World) : Prop :=
  match _writer (stream w) with
  | Some x =>
      exists wr, writers w !! x = Some wr /\ wf_writer wr /\ ready_in_sync w wr
        /\ NoDup (writer_live wr ++ stream_live (stream w))
        /\ Forall (pend (promises w)) (writer_live wr ++ stream_live (stream w))
  | None =>
      NoDup (stream_live (stream w))
      /\ Forall (pend (promises w)) (stream_live (stream w))
  end.

Record INVw (w : World) : Prop := {
  inv_no_abort_task : forall p f, ~ In (TAbort p f) (tasks w);
  inv_attached : attached_ok w;
  inv_owner : forall y wr, writers w !! y = Some wr -> _ownerWritableStream wr = true ->
     _writer (stream w) = Some y;
  inv_backpressure :
     _closeRequest (stream w) = None -> _inflightCloseRequest (stream w) = None ->
     _backpressure (stream w)
     = Some (WritableStreamDefaultControllerGetBackpressure (controller w))
}.

Definition INV (w : World) : Prop := _state (stream w) = writable -> INVw w.

Lemma wp_settle_cases p st Q E (w : World) :
  (pend (promises w) p -> Q tt (with_promises (fun h => <[p:=st]> h) w)) ->
  (~ pend (promises w) p -> Q tt w) ->
  wp (settle p st) Q E w.
Proof.
  intros H1 H2. unfold wp, settle, pend in *.
  destruct (promises w !! p) as [[]|] eqn:E1; try (apply H2; congruence). apply H1; reflexivity.
Qed.

Lemma wp_the_writer_known x wr Q E (w : World) :
  writers w !! x = Some wr -> Q wr w -> wp (the_writer x) Q E w.
Proof. intros Hx HQ. unfold wp, the_writer. now rewrite Hx. Qed.

Lemma INV_final (w : World) : is_final w -> INV w.
Proof. intros H1 H2. contradiction. Qed.

(** Nothing changed but the counter of errors and new promises. *)
Definition extends (w w' : World) : Prop :=
  stream w' = stream w /\ controller w' = controller w /\ writers w' = writers w
  /\ (forall t, In t (tasks w') -> In t (tasks w))
  /\ exists l, promises w' = promises w ++ l.

Lemma Forall_pend_app h k l : Forall (pend h) l -> Forall (pend (h ++ k)) l.
Proof. intros H. eapply Forall_impl; [exact H |]. intros p Hp. now apply lookup_app_l_Some. Qed.

Lemma pend_app h k p : pend h p -> pend (h ++ k) p.
Proof. intros Hp. now apply lookup_app_l_Some. Qed.

Lemma pend_insert h q st p : p <> q -> pend h p -> pend (<[q:=st]> h) p.
Proof. intros Hne Hp. unfold pend. now rewrite list_lookup_insert_ne. Qed.

Lemma Forall_pend_insert h q st l :
  q ∉ l -> Forall (pend h) l -> Forall (pend (<[q:=st]> h)) l.
Proof.
  intros Hq H. apply Forall_forall. intros p Hp. apply pend_insert.
  - intros ->. now apply Hq.
  - rewrite Forall_forall in H. now apply H.
Qed.

Lemma pend_lt h p : pend h p -> p < length h.
Proof. apply lookup_lt_Some. Qed.

Lemma submseteq_NoDup (k l : list nat) : k ⊆+ l -> NoDup l -> NoDup k.
Proof.
  intros Hsub Hl. apply submseteq_Permutation in Hsub as [k' Hk'].
  rewrite Hk' in Hl. now apply NoDup_app in Hl as [? _].
Qed.

Lemma submseteq_Forall (P : nat -> Prop) (k l : list nat) :
  k ⊆+ l -> Forall P l -> Forall P k.
Proof.
  intros Hsub Hl. apply Forall_forall. intros p Hp. rewrite Forall_forall in Hl.
  apply Hl. eapply elem_of_submseteq; [exact Hp | exact Hsub].
Qed.

Lemma NoDup_ne (l : list nat) p q : NoDup l -> [p; q] ⊆+ l -> p <> q.
Proof.
  intros Hl Hsub Heq. subst. apply (submseteq_NoDup _ _ Hsub) in Hl.
  apply NoDup_cons in Hl as [Hn _]. apply Hn. now left.
Qed.

Lemma NoDup_not_in (l k : list nat) q : NoDup l -> q :: k ⊆+ l -> q ∉ k.
Proof.
  intros Hl Hsub. apply (submseteq_NoDup _ _ Hsub) in Hl.
  now apply NoDup_cons in Hl as [Hn _].
Qed.

(** New promises are not among the owned ones. *)
Lemma NoDup_fresh h (l : list nat) : 
  NoDup l -> Forall (pend h) l ->
  NoDup (length h :: S (length h) :: S (S (length h)) :: l).
Proof.
  intros Hl Hp.
  assert (Hlt : forall p, p ∈ l -> p < length h).
  { intros p Hin. rewrite Forall_forall in Hp. now apply pend_lt, Hp. }
  repeat (apply NoDup_cons; split); [| | | exact Hl].
  - rewrite !not_elem_of_cons. repeat split; try lia. intros Hin%Hlt. lia.
  - rewrite !not_elem_of_cons. repeat split; try lia. intros Hin%Hlt. lia.
  - intros Hin%Hlt. lia.
Qed.

Lemma lookup_In {A} (l : list A) i a : l !! i = Some a -> In a l.
Proof.
  revert i. induction l as [|b l IH]; intros [|i] H; simpl in *; try discriminate.
  - left. congruence.
  - right. eapply IH, H.
Qed.

Lemma In_remove_nth {A} (l : list A) n a : In a (take n l ++ drop (S n) l) -> In a l.
Proof.
  intros Hin. apply in_app_or in Hin as [Hin | Hin].
  - rewrite <- (take_drop n l). apply in_or_app. now left.
  - rewrite <- (take_drop (S n) l). apply in_or_app. now right.
Qed.

Lemma INV_extends (w w' : World) : INV w -> extends w w' -> INV w'.
Proof.
  intros H (Hs & Hc & Hws & Hts & l & Hps) Hst.
  rewrite Hs in Hst. destruct (H Hst) as [HA HW HW2 HBP].
  split.
  - intros p f Hin. apply (HA p f), Hts, Hin.
  - unfold attached_ok in *. rewrite Hs, Hws. destruct (_writer (stream w)) as [x|].
    + destruct HW as (wr & Hwr & Hwf & Hsync & Hnd & Hp).
      exists wr. split; [exact Hwr |]. split; [exact Hwf |]. split; [| split; [exact Hnd |]].
      * unfold ready_in_sync in *. rewrite Hs. intros Hpar Hcr Hifc.
        specialize (Hsync Hpar Hcr Hifc). destruct (_backpressure (stream w)) as [[|]|]; auto;
          destruct Hsync as [H1 H2]; (split; [exact H1 |]); rewrite Hps;
          apply lookup_app_l_Some; exact H2.
      * rewrite Hps. now apply Forall_pend_app.
    + destruct HW as [Hnd Hp]. split; [exact Hnd |]. rewrite Hps. now apply Forall_pend_app.
  - rewrite Hs, Hws. exact HW2.
  - rewrite Hs, Hc. exact HBP.
Qed.
End Invariant.

(** *** Stores after an update *)

Section Ownership.
Lemma pend_of (h : list PromiseState) (l : list nat) p : Forall (pend h) l -> [p] ⊆+ l -> pend h p.
Proof. intros H Hsub. apply (submseteq_Forall _ _ _ Hsub) in H. now apply Forall_cons in H as [? _]. Qed.

Lemma fresh_ne (h : list PromiseState) (l : list nat) p q :
  Forall (pend h) l -> [q] ⊆+ l -> length h <= p -> p <> q.
Proof. intros H Hsub Hle ->. apply (pend_of _ _ _ H), pend_lt in Hsub. lia. Qed.

Lemma fresh_not_in (h : list PromiseState) (l k : list nat) p :
  Forall (pend h) l -> k ⊆+ l -> length h <= p -> p ∉ k.
Proof.
  intros H Hsub Hle Hin. apply (submseteq_Forall _ _ _ Hsub) in H.
  rewrite Forall_forall in H. apply H, pend_lt in Hin. lia.
Qed.

Lemma owner_alter (f : Writer -> Writer) x (ws : list Writer) (W : option nat) :
  (forall wr, _ownerWritableStream (f wr) = _ownerWritableStream wr) ->
  (forall y wr, ws !! y = Some wr -> _ownerWritableStream wr = true -> W = Some y) ->
  forall y wr, alter f x ws !! y = Some wr -> _ownerWritableStream wr = true -> W = Some y.
Proof.
  intros Hf H y wr Hy Ho. destruct (decide (x = y)) as [->|Hne].
  - rewrite list_lookup_alter_eq in Hy. destruct (ws !! y) as [wr0|] eqn:E; [| discriminate].
    simpl in Hy. injection Hy as <-. rewrite Hf in Ho. eapply H; eauto.
  - rewrite list_lookup_alter_ne in Hy by exact Hne. eapply H; eauto.
Qed.

Lemma pend_snoc_last (h : list PromiseState) p :
  p = length h -> pend (h ++ [Pending]) p.
Proof. intros ->. apply lookup_snoc_last. Qed.

Lemma alter_snoc {A} (f : A -> A) (l : list A) a :
  alter f (length l) (l ++ [a]) = l ++ [f a].
Proof.
  induction l as [|b l IH]; simpl; [reflexivity |]. f_equal. exact IH.
Qed.

Lemma owner_snoc (ws : list Writer) a :
  (forall y wr, ws !! y = Some wr -> _ownerWritableStream wr = true -> None = Some y) ->
  forall y wr, (ws ++ [a]) !! y = Some wr -> _ownerWritableStream wr = true ->
    Some (length ws) = Some y.
Proof.
  intros H y wr Hy Ho. destruct (decide (y < length ws)) as [Hlt|Hge].
  - rewrite lookup_app_l in Hy by exact Hlt. specialize (H _ _ Hy Ho). discriminate.
  - apply lookup_lt_Some in Hy. rewrite length_app in Hy. simpl in Hy. f_equal. lia.
Qed.

Lemma lookup_snoc_at {A} (h : list A) a p : p = length h -> (h ++ [a]) !! p = Some a.
Proof. intros ->. apply lookup_snoc_last. Qed.

Lemma owner_release (f : Writer -> Writer) x (ws : list Writer) :
  (forall wr, _ownerWritableStream (f wr) = false) ->
  (forall y wr, ws !! y = Some wr -> _ownerWritableStream wr = true -> Some x = Some y) ->
  forall y wr, alter f x ws !! y = Some wr -> _ownerWritableStream wr = true -> None = Some y.
Proof.
  intros Hf H y wr Hy Ho. destruct (decide (x = y)) as [->|Hne].
  - rewrite list_lookup_alter_eq in Hy. destruct (ws !! y) as [wr0|] eqn:E; [| discriminate].
    simpl in Hy. injection Hy as <-. rewrite Hf in Ho. discriminate.
  - rewrite list_lookup_alter_ne in Hy by exact Hne. specialize (H _ _ Hy Ho). congruence.
Qed.

Lemma settled_insert (h : list PromiseState) (p q : nat) st st' :
  h !! p = Some st' -> st' <> Pending -> h !! q = Some Pending ->
  <[q:=st]> h !! p = Some st'.
Proof.
  intros Hp Hne Hq. rewrite list_lookup_insert_ne; [exact Hp |].
  intros ->. congruence.
Qed.
End Ownership.

(** *** Symbolic execution that keeps track of the promises

    [prune] closes the branches that run in a [closed] or [errored] world. *)
Ltac prune :=
  cbv beta;
  lazymatch goal with
  | |- wp _ _ _ _ =>
      apply wp_final;
      [ solve [kf]
      | first [assumption | unfold is_final; world_simpl; discriminate]
      | intros ? ? ?; prune
      | intros ? ?; prune ]
  | |- INV _ => apply INV_final; assumption
  | |- forall _, _ => intros ?; prune
  end.

Ltac world_simpl_in H :=
  cbv beta iota zeta delta
    [with_stream with_controller with_writers with_promises with_tasks with_sinkCalls
     with_nextError set_state set_storedError set_writer set_writeRequests
     set_inflightWriteRequest set_closeRequest set_inflightCloseRequest
     set_pendingAbortRequest set_backpressure set_queue set_started set_strategy
     stream controller writers promises tasks sinkCalls nextError
     _state _storedError _writer _writeRequests _inflightWriteRequest _closeRequest
     _inflightCloseRequest _pendingAbortRequest _backpressure
     _underlyingSink _queue _started _strategySize _strategyHWM] in H.

(** Case analysis, on a variable without equation. *)
Ltac case_on' x :=
  lazymatch x with
  | context [match ?y with _ => _ end] => case_on' y
  | _ => tryif is_var x then destruct x else destruct x eqn:?
  end.

Ltac hyp_simpl :=
  repeat match goal with
  | H : True |- _ => clear H
  | H : ?a = ?a |- _ => clear H
  | H : _ /\ _ |- _ => destruct H
  | H : exists _, _ |- _ => destruct H
  | H : ?a = ?a -> _ |- _ => specialize (H eq_refl)
  | H : Some _ = None |- _ => discriminate H
  | H : None = Some _ |- _ => discriminate H
  | H : true = false |- _ => discriminate H
  | H : false = true |- _ => discriminate H
  | H : Some _ = None -> _ |- _ => clear H
  | H : None = Some _ -> _ |- _ => clear H
  | H : Some ?a = Some ?b |- _ =>
      injection H as H; first [subst a | subst b | idtac]
  | H : ?x = _ |- _ => is_var x; subst x
  | H : _ = ?x |- _ => is_var x; subst x
  | H : forall p, Some ?a = Some p -> _ |- _ => specialize (H a eq_refl)
  | H : forall p : nat, None = Some p -> _ |- _ => clear H
  | H : attached_ok _ |- _ => unfold attached_ok in H; world_simpl_in H
  | H : wf_writer ?wr |- _ =>
      destruct wr as [?own ?rp ?rres ?rrej ?cp ?cres ?crej]; unfold wf_writer in H; simpl in H
  | H : ready_in_sync _ _ |- _ => unfold ready_in_sync in H; simpl in H
  | H : match ?x with _ => _ end |- _ => is_var x; destruct x
  | HA : (forall p f, ~ In (TAbort p f) ?ts), H : ?ts !! _ = Some (TAbort _ _) |- _ =>
      exfalso; exact (HA _ _ (lookup_In _ _ _ H))
  | H1 : ?l !! ?i = Some ?a, H2 : ?l !! ?i = Some ?b |- _ =>
      rewrite H1 in H2
  | HW2 : (forall y wr, ?l !! y = Some wr -> _ownerWritableStream wr = true -> _),
    H1 : ?l !! ?i = Some ?a, H2 : _ownerWritableStream ?a = true |- _ =>
      let H := fresh in
      pose proof (HW2 _ _ H1 H2) as H; clear H2
  | HW2 : (forall y wr, ?l !! y = Some wr -> _ownerWritableStream wr = true -> ?W = Some y),
    H1 : ?l !! ?i = Some (Build_Writer true _ _ _ _ _ _) |- _ =>
      lazymatch W with
      | Some i => fail
      | _ => let H := fresh in pose proof (HW2 _ _ H1 eq_refl) as H
      end
  end.

Ltac exec_simpl :=
  cbv beta iota zeta delta
    [with_stream with_controller with_writers with_promises with_tasks with_sinkCalls
     with_nextError set_state set_storedError set_writer set_writeRequests
     set_inflightWriteRequest set_closeRequest set_inflightCloseRequest
     set_pendingAbortRequest set_backpressure set_queue set_started set_strategy
     stream controller writers promises tasks sinkCalls nextError
     _state _storedError _writer _writeRequests _inflightWriteRequest _closeRequest
     _inflightCloseRequest _pendingAbortRequest _backpressure
     _underlyingSink _queue _started _strategySize _strategyHWM
     _ownerWritableStream _readyPromise _readyPromise_resolve _readyPromise_reject
     _closedPromise _closedPromise_resolve _closedPromise_reject
     set_owner set_ready set_closed
     StreamState_eqb is_set negb andb orb option_bool_eqb Bool.eqb
     IsWritableStreamLocked WritableStreamIsReadyForWrites
     WritableStreamHasOperationMarkedInflight returning
     call_resolve call_reject Promise_resolve Promise_reject update_writer
     PromiseInvokeOrNoop defaultWriterLockException defaultWriterBrandCheckException].

Ltac exec_simpl_in H :=
  cbv beta iota zeta delta
    [with_stream with_controller with_writers with_promises with_tasks with_sinkCalls
     with_nextError
     stream controller writers promises tasks sinkCalls nextError] in H.

Ltac wp_phead m :=
  lazymatch m with
  | mbind _ _ => apply wp_bind
  | mret _ => apply wp_ret
  | gets _ => apply wp_gets
  | modify _ => apply wp_modify
  | throw _ => apply wp_throw
  | new_error _ _ => apply wp_new_error
  | new_promise _ => apply wp_new_promise
  | assert ?c _ =>
      lazymatch c with
      | context [match ?y with _ => _ end] => case_on' y; hyp_simpl
      | _ => apply wp_assert; intros ?; try discriminate
      end
  | settle _ _ =>
      let H := fresh "Hs" in apply wp_settle_cases; intros H; exec_simpl_in H
  | for_each _ _ =>
      apply wp_for_each_settle_any; [intros ?; eexists _, _; reflexivity | intros ?]
  | the_writer _ =>
      first [ eapply wp_the_writer_known; [world_simpl; eassumption |]
            | eapply wp_the_writer_known;
              [ world_simpl; rewrite ?alter_snoc, ?list_lookup_alter_eq;
                first [ rewrite lookup_snoc_last
                      | match goal with
                        | Hx : ?l !! ?i = Some _ |- context [?l !! ?i] => rewrite Hx
                        end ];
                reflexivity |]
            | let H := fresh "Hw" in
              apply wp_the_writer;
              [intros [?own ?rp ?rres ?rrej ?cp ?cres ?crej] H; world_simpl_in H
              | intros H; world_simpl_in H]; hyp_simpl ]
  | try_catch _ _ => apply wp_try_catch
  | match ?x with _ => _ end => case_on' x; hyp_simpl
  | ?f => let h := head_of f in unfold h
  end.

Ltac wp_pstep :=
  exec_simpl;
  lazymatch goal with
  | |- wp _ _ _ (Build_World (Build_WritableStream errored _ _ _ _ _ _ _ _) _ _ _ _ _ _) => prune
  | |- wp _ _ _ (Build_World (Build_WritableStream closed _ _ _ _ _ _ _ _) _ _ _ _ _ _) => prune
  | |- wp ?m _ _ _ => wp_phead m
  | |- forall _, _ => intros ?
  end.

Ltac wp_pgo := repeat wp_pstep.

Ltac solve_extends :=
  unfold extends; world_simpl;
  split; [reflexivity |]; split; [reflexivity |]; split; [reflexivity |];
  split; [ first [ intros ? ?; assumption | intros ? ?; eapply In_remove_nth; eassumption ] |];
  rewrite <- ?app_assoc;
  first [ eexists; reflexivity | exists []; rewrite app_nil_r; reflexivity ].

Ltac pw_simpl :=
  cbv beta iota zeta delta
    [with_stream with_controller with_writers with_promises with_tasks with_sinkCalls
     with_nextError set_state set_storedError set_writer set_writeRequests
     set_inflightWriteRequest set_closeRequest set_inflightCloseRequest
     set_pendingAbortRequest set_backpressure set_queue set_started set_strategy
     stream controller writers promises tasks sinkCalls nextError
     _state _storedError _writer _writeRequests _inflightWriteRequest _closeRequest
     _inflightCloseRequest _pendingAbortRequest _backpressure
     _underlyingSink _queue _started _strategySize _strategyHWM
     _ownerWritableStream _readyPromise _readyPromise_resolve _readyPromise_reject
     _closedPromise _closedPromise_resolve _closedPromise_reject
     set_owner set_ready set_closed
     attached_ok writer_live stream_live opt_list req_pid abort_pid wf_writer ready_in_sync
     is_set negb andb orb].

Ltac pw_simpl_in H :=
  cbv beta iota zeta delta
    [with_stream with_controller with_writers with_promises with_tasks with_sinkCalls
     with_nextError set_state set_storedError set_writer set_writeRequests
     set_inflightWriteRequest set_closeRequest set_inflightCloseRequest
     set_pendingAbortRequest set_backpressure set_queue set_started set_strategy
     stream controller writers promises tasks sinkCalls nextError
     _state _storedError _writer _writeRequests _inflightWriteRequest _closeRequest
     _inflightCloseRequest _pendingAbortRequest _backpressure
     _underlyingSink _queue _started _strategySize _strategyHWM
     _ownerWritableStream _readyPromise _readyPromise_resolve _readyPromise_reject
     _closedPromise _closedPromise_resolve _closedPromise_reject
     set_owner set_ready set_closed
     attached_ok writer_live stream_live opt_list req_pid abort_pid wf_writer ready_in_sync
     is_set negb andb orb] in H.

Ltac list_norm :=
  rewrite ?fmap_app, ?fmap_cons, ?fmap_nil, ?length_app, ?length_insert;
  cbn [rq_promise ar_promise length]; rewrite ?Nat.add_1_r.
Ltac list_norm_in H :=
  rewrite ?fmap_app, ?fmap_cons, ?fmap_nil, ?length_app, ?length_insert in H;
  cbn [rq_promise ar_promise length] in H; rewrite ?Nat.add_1_r in H.

(** [Hnd : NoDup L0], [Hp : Forall (pend ps) L0] are the facts about the world before. *)
Ltac solve_ne Hnd Hp :=
  first [ lia
        | eapply (NoDup_ne _ _ _ Hnd); solve_submseteq
        | eapply (fresh_ne _ _ _ _ Hp); [solve_submseteq | lia]
        | apply not_eq_sym; eapply (fresh_ne _ _ _ _ Hp); [solve_submseteq | lia] ].

Ltac solve_pend Hnd Hp :=
  lazymatch goal with
  | |- pend (?h ++ _) ?p =>
      first [ apply pend_snoc_last; rewrite ?length_app, ?length_insert; simpl; lia
            | apply pend_app; solve_pend Hnd Hp ]
  | |- pend (<[?q:=_]> ?h) ?p => apply pend_insert; [solve_ne Hnd Hp | solve_pend Hnd Hp]
  | |- pend _ _ => eapply (pend_of _ _ _ Hp); solve_submseteq
  | |- Forall (pend (?h ++ _)) _ => apply Forall_pend_app; solve_pend Hnd Hp
  | |- Forall (pend (<[?q:=_]> ?h)) _ =>
      apply Forall_pend_insert;
      [ first [ eapply (NoDup_not_in _ _ _ Hnd); solve_submseteq
              | eapply (fresh_not_in _ _ _ _ Hp); [solve_submseteq | lia] ]
      | solve_pend Hnd Hp ]
  | |- Forall (pend _) _ => eapply submseteq_Forall; [| exact Hp]; solve_submseteq
  end.

Ltac solve_Forall_pend Hnd Hp :=
  repeat first
    [ apply Forall_nil_2
    | apply Forall_cons_2; [solve_pend Hnd Hp |]
    | apply Forall_app_2; [| ] ];
  try solve_pend Hnd Hp.

Ltac solve_NoDup Hnd Hp :=
  eapply submseteq_NoDup; [| apply (NoDup_fresh _ _ Hnd Hp)]; solve_submseteq.

Ltac with_own tac :=
  lazymatch goal with
  | Hnd : NoDup _, Hp : Forall (pend _) _ |- _ => tac Hnd Hp
  end.

Ltac norm_own :=
  lazymatch goal with
  | Hnd : NoDup _, Hp : Forall (pend _) _ |- _ =>
      pw_simpl_in Hnd; list_norm_in Hnd; pw_simpl_in Hp; list_norm_in Hp
  end.

Ltac solve_wf := repeat split; first [assumption | reflexivity | intros; congruence | auto].

(** [h !! p = Some st] for a settled [st]. *)
Ltac solve_settled :=
  lazymatch goal with
  | |- (_ ++ _) !! _ = Some _ =>
      first [ apply lookup_snoc_at; rewrite ?length_app, ?length_insert; simpl; lia
            | apply lookup_app_l_Some; solve_settled ]
  | |- <[?q:=_]> _ !! ?q = Some _ =>
      apply list_lookup_insert_eq; eapply pend_lt; eassumption
  | |- <[_:=_]> _ !! _ = Some _ =>
      eapply settled_insert; [solve_settled | discriminate | first [eassumption | with_own solve_pend]]
  | |- _ => eassumption
  end.

Ltac solve_sync :=
  intros; hyp_simpl;
  first [ reflexivity | assumption | congruence
        | split; [first [reflexivity | assumption | congruence] | solve_settled]
        | auto ].

Ltac solve_tasks HA :=
  let p := fresh in let f := fresh in let Hin := fresh in
  intros p f Hin;
  repeat lazymatch type of Hin with
  | In _ (take _ _ ++ drop _ _) => apply In_remove_nth in Hin
  | In _ (_ ++ _) => apply in_app_or in Hin; destruct Hin as [Hin | Hin]
  end;
  first [ exact (HA _ _ Hin)
        | simpl in Hin; intuition discriminate ].

(** A settle that found the promise not pending although it is owned. *)
Ltac absurd_settle :=
  match goal with
  | H : ~ pend _ _ |- _ => exfalso; apply H; with_own solve_pend
  end.

Ltac split_requests :=
  repeat match goal with
  | |- context [head (?l ++ _)] => is_var l; destruct l; cbn [head tail app]
  | |- context [head ?l] => is_var l; destruct l; cbn [head tail app]
  | H : context [length (?l ++ [_])] |- _ => rewrite length_app in H; simpl in H
  end.

Ltac solve_attached :=
  unfold attached_ok; world_simpl;
  lazymatch goal with
  | |- exists wr, _ =>
      eexists; split;
      [ rewrite ?alter_snoc, ?list_lookup_alter_eq;
        first [ rewrite lookup_snoc_last
              | match goal with Hx : _ !! _ = Some _ |- _ => rewrite Hx end ];
        reflexivity
      | pw_simpl; list_norm;
        split; [solve_wf | split; [solve_sync | split;
          [with_own solve_NoDup | with_own solve_Forall_pend]]] ]
  | |- _ /\ _ =>
      pw_simpl; list_norm;
      split; [with_own solve_NoDup | with_own solve_Forall_pend]
  end.

Ltac solve_leaf HA HW2 :=
  intros _; split_requests; norm_own;
  try absurd_settle;
  (split; world_simpl;
   [ first [exact HA | solve_tasks HA]
   | solve_attached
   | rewrite ?alter_snoc; repeat (apply owner_alter; [intros []; reflexivity |]);
     first [ exact HW2 | apply owner_snoc; exact HW2
           | apply owner_release; [intros []; reflexivity |];
             repeat (apply owner_alter; [intros []; reflexivity |]); exact HW2 ]
   | intros; hyp_simpl; first [congruence | auto] ]).

(** *** Every operation keeps the invariant *)

Section InvariantPreserved.
Context {num : Type} {JSN : JSNumber num}.
Abbreviation World := (World (num:=num)).

Lemma INV_step (l : Label) (w : World) : INV w -> INV (step l w).
Proof.
  intros H. unfold step. apply (wp_run _ INV).
  destruct_world w. pose proof H as Hinv. unfold INV in H; simpl in H.
  destruct st; [| prune | prune].
  specialize (H eq_refl). destruct H as [HA HW HW2 HBP]. simpl in *.
  destruct l; unfold run.
  all: wp_pgo;
    try (apply (INV_extends _ _ Hinv); solve_extends);
    clear Hinv;
    try (solve_leaf HA HW2; fail).
Qed.

Lemma INV_constructor underlyingSink size highWaterMark (w : World) :
  WritableStream_constructor underlyingSink size highWaterMark = (w, Normal tt) -> INV w.
Proof.
  unfold WritableStream_constructor.
  match goal with |- ?m ?w0 = _ -> _ =>
    intros Hrun;
    refine (wp_normal m (fun _ w' => INV w') (fun _ => True) w0 w tt _ Hrun); clear Hrun
  end.
  unfold blank_world.
  destruct (sink_type underlyingSink);
    unfold WritableStreamDefaultController_constructor, ValidateAndNormalizeQueuingStrategy,
      WritableStreamDefaultControllerStart, WritableStreamUpdateBackpressure;
    wp_go; world_simpl; auto.
  all: intros _; split; simpl;
    [ intros p f [Hin | []]; discriminate
    | unfold attached_ok; simpl; split; constructor
    | intros y wr Hl; rewrite lookup_nil in Hl; discriminate
    | reflexivity ].
Qed.

Lemma reachable_INV (w : World) : reachable w -> INV w.
Proof.
  induction 1 as [sink size hwm w Hnew | l w Hw IH Hen].
  - eapply INV_constructor, Hnew.
  - now apply INV_step.
Qed.

End InvariantPreserved.

(** Symbolic execution as [wp_pgo], final worlds included. *)
Ltac wp_xgo :=
  repeat (exec_simpl;
          lazymatch goal with
          | |- wp ?m _ _ _ => wp_phead m
          | |- forall _, _ => intros ?
          end).

(** ** Backpressure *)

Section Backpressure.
Context {num : Type} {JSN : JSNumber num}.
Abbreviation World := (World (num:=num)).

(** In a writable world with a writer, no pending abort request and no close
    requested, [writer.ready] is pending exactly when the controller reports
    backpressure. *)
Lemma INV_ready_pending (w : World) (x : nat) (wr : Writer) :
  INV w ->
  _state (stream w) = writable ->
  _writer (stream w) = Some x -> writers w !! x = Some wr ->
  _closeRequest (stream w) = None -> _inflightCloseRequest (stream w) = None ->
  _pendingAbortRequest (stream w) = None ->
  (promises w !! _readyPromise wr = Some Pending
   <-> WritableStreamDefaultControllerGetBackpressure (controller w) = true).
Proof.
  intros HI Hst Hw Hwr Hcr Hifc Hpar. destruct (HI Hst) as [_ HW _ HBP].
  specialize (HBP Hcr Hifc). unfold attached_ok in HW. rewrite Hw in HW.
  destruct HW as (wr0 & Hwr0 & Hwf & Hsync & Hnd & Hp).
  rewrite Hwr in Hwr0. injection Hwr0 as <-.
  specialize (Hsync Hpar Hcr Hifc). rewrite HBP in Hsync.
  destruct (WritableStreamDefaultControllerGetBackpressure (controller w)).
  - split; [reflexivity | intros _].
    apply Forall_app in Hp as [Hp _]. unfold writer_live in Hp. rewrite Hsync in Hp.
    simpl in Hp. apply Forall_cons in Hp as [Hp _]. exact Hp.
  - destruct Hsync as [_ Hful]. rewrite Hful. split; discriminate.
Qed.

(** A writable world in which no close is requested and whose queue is not
    [q0] has no pending abort request. *)
Definition queue_mutation_clears_abort (q0 : list (WriteRecord * num)) (w' : World) : Prop :=
  _state (stream w') = writable ->
  _closeRequest (stream w') = None -> _inflightCloseRequest (stream w') = None ->
  _queue (controller w') <> q0 ->
  _pendingAbortRequest (stream w') = None.

(** No operation changes the queue and leaves the stream writable, without
    close request and with a pending abort request: a write is refused while
    an abort is pending, and the fulfilment of a sink write finishes the
    pending abort, which errors the stream, before it would dequeue. *)
Lemma queue_mutation_no_pending_abort l (w : World) :
  queue_mutation_clears_abort (_queue (controller w)) (step l w).
Proof.
  unfold step. apply (wp_run _ (queue_mutation_clears_abort (_queue (controller w)))).
  unfold queue_mutation_clears_abort.
  destruct_world w. simpl.
  destruct l; unfold run.
  all: wp_go; world_simpl; intros; try congruence; try discriminate; auto;
    try (intuition congruence).
Qed.

(** C3.  (1) Let an operation of a reachable stream change the controller's
    queue (a write enqueues, the fulfilment of a sink write dequeues).  If
    afterwards the stream is writable, has a writer attached and no close
    has been requested (neither queued nor in flight), then the promise that
    [writer.ready] returns is pending if and only if
    [hwm - totalSize <= 0], with [totalSize] the total of the sizes in the
    queue as it is now.  (2) The same equivalence holds in every reachable
    world with these properties and without pending abort request, whether
    or not the queue has just changed; this covers a writer acquired right
    after construction.  (3) The constructor leaves the queue empty and
    publishes [hwm <= 0] as the initial backpressure. *)
Theorem C3_backpressure :
  (forall (w : World) (l : Label) (x : nat) (wr : Writer),
     reachable w -> enabled l w = true ->
     let w' := step l w in
     _queue (controller w') <> _queue (controller w) ->
     _state (stream w') = writable ->
     _writer (stream w') = Some x -> writers w' !! x = Some wr ->
     _closeRequest (stream w') = None -> _inflightCloseRequest (stream w') = None ->
     (promises w' !! _readyPromise wr = Some Pending
      <-> nle0 (nsub (_strategyHWM (controller w'))
                     (GetTotalQueueSize (_queue (controller w')))) = true))
  /\ (forall (w : World) (x : nat) (wr : Writer),
     reachable w ->
     _state (stream w) = writable ->
     _writer (stream w) = Some x -> writers w !! x = Some wr ->
     _closeRequest (stream w) = None -> _inflightCloseRequest (stream w) = None ->
     _pendingAbortRequest (stream w) = None ->
     (promises w !! _readyPromise wr = Some Pending
      <-> nle0 (nsub (_strategyHWM (controller w))
                     (GetTotalQueueSize (_queue (controller w)))) = true))
  /\ (forall underlyingSink size highWaterMark (w : World),
     WritableStream_constructor underlyingSink size highWaterMark = (w, Normal tt) ->
     _queue (controller w) = []
     /\ _strategyHWM (controller w)
        = match highWaterMark with Some h => h | None => none end
     /\ _backpressure (stream w) = Some (nle0 (_strategyHWM (controller w)))).
Proof.
  split; [| split].
  - intros w l x wr Hr Hen w' Hq Hst Hw Hwr Hcr Hifc.
    apply (INV_ready_pending w' x wr); auto.
    + apply INV_step, reachable_INV, Hr.
    + apply (queue_mutation_no_pending_abort l w); assumption.
  - intros w x wr Hr. apply INV_ready_pending, reachable_INV, Hr.
  - intros sink size hwm w Hnew.
    pose proof (constructor_writable _ _ _ _ Hnew) as (_ & _ & _ & _ & _ & Hq & Hbp).
    rewrite nsub_zero_le0 in Hbp. split; [exact Hq |]. split; [| exact Hbp].
    revert Hnew. unfold WritableStream_constructor.
    match goal with |- ?m ?w0 = _ -> _ =>
      intros Hrun;
      refine (wp_normal m (fun _ w' => _strategyHWM (controller w') = _) (fun _ => True)
                w0 w tt _ Hrun); clear Hrun
    end.
    unfold blank_world.
    destruct (sink_type sink);
      unfold WritableStreamDefaultController_constructor, ValidateAndNormalizeQueuingStrategy,
        WritableStreamDefaultControllerStart, WritableStreamUpdateBackpressure;
      wp_go; world_simpl; auto.
Qed.
End Backpressure.

(** ** The sink's close fulfils while an abort is pending *)

Section CloseAndAbort.
Context {num : Type} {JSN : JSNumber num}.
Abbreviation World := (World (num:=num)).

(** A computation that cannot throw returns. *)
Lemma wp_returns {A} (m : M A) Q (w : World) :
  wp m Q (fun _ => False) w -> exists w' a, m w = (w', Normal a) /\ Q a w'.
Proof. unfold wp. destruct (m w) as [w' [a|e]]; [eauto | tauto]. Qed.

(** C6.  In a reachable world let the stream be writable with an in-flight
    close request and a pending abort request, and let the promise of
    [sink.close()] (task [i]) fulfil.  Then the continuation returns and:
    the promise of the in-flight close request, pending before, is fulfilled
    with [undefined] and the slot is cleared; the state is [errored] and the
    stored error is a new [TypeError] "Abort requested but closed
    successfully"; the promise of the pending abort request, pending before,
    is fulfilled with [undefined] and the request is cleared; and, when a
    writer is attached, its closed promise, pending before, is rejected with
    the stored error (the writer keeps that promise object). *)
Theorem C6_close_fulfils_while_abort_pending (w : World) (i : nat)
    (closeRequest : Request) (abortRequest : AbortRequest) :
  reachable w ->
  tasks w !! i = Some TClose ->
  _state (stream w) = writable ->
  _inflightCloseRequest (stream w) = Some closeRequest ->
  _pendingAbortRequest (stream w) = Some abortRequest ->
  let error := VError (nextError w) TypeError "Abort requested but closed successfully" in
  exists w',
    run (sink_settles i fulfils) w = (w', Normal RUnit)
    /\ promises w !! rq_promise closeRequest = Some Pending
    /\ promises w' !! rq_promise closeRequest = Some (Fulfilled VUndefined)
    /\ _inflightCloseRequest (stream w') = None
    /\ _state (stream w') = errored
    /\ _storedError (stream w') = error
    /\ promises w !! ar_promise abortRequest = Some Pending
    /\ promises w' !! ar_promise abortRequest = Some (Fulfilled VUndefined)
    /\ _pendingAbortRequest (stream w') = None
    /\ (forall x wr, _writer (stream w) = Some x -> writers w !! x = Some wr ->
        promises w !! _closedPromise wr = Some Pending
        /\ promises w' !! _closedPromise wr = Some (Rejected error)
        /\ exists wr', writers w' !! x = Some wr' /\ _closedPromise wr' = _closedPromise wr).
Proof.
  intros Hr Hi Hst Hifc Hpar error.
  pose proof (reachable_INV w Hr Hst) as [HA HW HW2 HBP].
  cut (exists w' a, run (sink_settles i fulfils) w = (w', Normal a) /\
         (fun a w' => a = RUnit
    /\ promises w !! rq_promise closeRequest = Some Pending
    /\ promises w' !! rq_promise closeRequest = Some (Fulfilled VUndefined)
    /\ _inflightCloseRequest (stream w') = None
    /\ _state (stream w') = errored
    /\ _storedError (stream w') = error
    /\ promises w !! ar_promise abortRequest = Some Pending
    /\ promises w' !! ar_promise abortRequest = Some (Fulfilled VUndefined)
    /\ _pendingAbortRequest (stream w') = None
    /\ (forall x wr, _writer (stream w) = Some x -> writers w !! x = Some wr ->
        promises w !! _closedPromise wr = Some Pending
        /\ promises w' !! _closedPromise wr = Some (Rejected error)
        /\ exists wr', writers w' !! x = Some wr' /\ _closedPromise wr' = _closedPromise wr)) a w').
  { intros (w' & a & Hrun & -> & H). exists w'. split; [exact Hrun | exact H]. }
  apply wp_returns. subst error.
  destruct_world w. subst.
  unfold run, settle_task.
  wp_xgo.
  all: norm_own; try absurd_settle.
  all: repeat match goal with |- _ /\ _ => split end; try reflexivity.
  all: try (intros x wr Hx Hwr; hyp_simpl; simpl;
            repeat match goal with |- _ /\ _ => split end).
  all: try solve [lazymatch goal with |- ?h !! ?p = Some Pending => change (pend h p) end;
                  with_own solve_pend].
  all: try solve [solve_settled].
  all: try solve [rewrite list_lookup_alter_eq;
                  match goal with Hx : _ !! _ = Some _ |- _ => rewrite Hx end;
                  simpl; eexists; split; reflexivity].
Qed.
End CloseAndAbort.


Section Reachability.
Context {num : Type} {JSN : JSNumber num}.

Lemma reachable_steps (ls : list Label) (w : World (num := num)) :
  reachable w -> all_enabled ls w = true -> reachable (steps ls w).
Proof.
  revert w. induction ls as [|l ls IH]; intros w Hw Hen; simpl in *.
  - exact Hw.
  - apply andb_prop in Hen as [Hl Hls].
    apply IH; [now apply reachable_step | exact Hls].
Qed.

End Reachability.

(** ** Concrete streams, with integer sizes *)

Module Scenario.

Local Open Scope string_scope.

(** A sink without [type], whose [start] returns. *)
Definition sink : Sink := {| sink_type := VUndefined; sink_start := Normal tt |}.

(** [new WritableStream(sink, { highWaterMark: hwm })] *)
Definition new_stream (hwm : Z) : World (num := Z) :=
  fst (WritableStream_constructor sink None (Some hwm)).

Lemma new_stream_reachable hwm : (0 <= hwm)%Z -> reachable (new_stream hwm).
Proof.
  intros H. apply (reachable_new sink None (Some hwm)).
  unfold new_stream, WritableStream_constructor; simpl.
  unfold WritableStreamDefaultController_constructor, ValidateAndNormalizeQueuingStrategy.
  simpl. destruct (Z.leb_spec 0 hwm); [reflexivity | lia].
Qed.

(** [start] has settled, a writer has been acquired, [writer.close()] was
    called and [sink.close()] has not settled yet. *)
Definition close_in_flight : list Label :=
  [sink_settles 0 fulfils; stream_getWriter; writer_close 0].

(** ... and then [writer.write(chunk)]. *)
Definition write_after_close (chunk : Value) : list Label :=
  (close_in_flight ++ [writer_write 0 chunk])%list.

End Scenario.

(** ** The reserved [type] of the sink *)

Section ReservedType.
Context {num : Type} {JSN : JSNumber num}.

Local Open Scope string_scope.

(** C8, as amended: constructing a stream on a sink whose [type] is anything
    but [undefined] fails synchronously; what is thrown is the first error
    object of the module, a [RangeError] "Invalid type is specified", and
    neither the strategy nor the sink's [start] is looked at. *)
Theorem C8_reserved_type_throws_RangeError
    (underlyingSink : Sink) (size : option (Value -> Completion num))
    (highWaterMark : option num) :
  sink_type underlyingSink <> VUndefined ->
  exists w,
    WritableStream_constructor underlyingSink size highWaterMark
    = (w, Throw (VError 0 RangeError "Invalid type is specified"))
    /\ sinkCalls w = [] /\ tasks w = [].
Proof.
  intros Htype. unfold WritableStream_constructor.
  destruct (sink_type underlyingSink) eqn:E; [congruence | | |];
    (eexists; split; [reflexivity | split; reflexivity]).
Qed.

End ReservedType.

Module ReservedTypeExamples.

Local Open Scope string_scope.

Definition typed_sink : Sink := {| sink_type := VStr "bytes"; sink_start := Normal tt |}.

Lemma C8_reserved_type_witness :
  sink_type typed_sink <> VUndefined
  /\ exists w : World (num := Z),
       WritableStream_constructor typed_sink None None
       = (w, Throw (VError 0 RangeError "Invalid type is specified"))
       /\ sinkCalls w = [] /\ tasks w = [].
Proof.
  split; [discriminate |].
  apply (C8_reserved_type_throws_RangeError typed_sink None None). discriminate.
Defined.

(** C8 as stated (a type error) does not hold: the error is a [RangeError]. *)
Lemma C8_not_a_TypeError :
  ~ (forall (underlyingSink : Sink) (size : option (Value -> Completion Z))
            (highWaterMark : option Z),
        sink_type underlyingSink <> VUndefined ->
        exists w serial message,
          WritableStream_constructor underlyingSink size highWaterMark
          = (w, Throw (VError serial TypeError message))).
Proof.
  intros H. destruct (H typed_sink None None) as (w & serial & message & E).
  - discriminate.
  - vm_compute in E. discriminate.
Qed.

End ReservedTypeExamples.

(** ** Writing and locking while the close is in flight *)

Module InflightClose.
Import Scenario.

(** A write that is called while the close request is still queued (the
    field [_closeRequest] is set) is rejected and changes nothing but the
    promise store and the error counter. *)
Lemma write_rejected_while_close_queued {num} {JSN : JSNumber num}
    (w : World (num := num)) x wr chunk r :
  writers w !! x = Some wr -> _ownerWritableStream wr = true ->
  _closeRequest (stream w) = Some r ->
  exists w' p serial,
    WritableStreamDefaultWriter_write x chunk w = (w', Normal p)
    /\ promises w' !! p
       = Some (Rejected (VError serial TypeError "Cannot write to an already-closed stream"%string))
    /\ stream w' = stream w /\ controller w' = controller w
    /\ sinkCalls w' = sinkCalls w /\ tasks w' = tasks w.
Proof.
  intros Hx Hown Hclose.
  unfold WritableStreamDefaultWriter_write, the_writer, mbind, M_bind.
  rewrite Hx, Hown. simpl. rewrite Hclose. simpl.
  eexists _, _, _. split; [reflexivity |]. simpl.
  split; [| repeat split].
  rewrite lookup_app_r by lia. now rewrite Nat.sub_diag.
Qed.

(** The stream of the scenario: default high-water mark 1, [start] settled,
    a writer acquired, [writer.close()] called, [sink.close()] pending. *)
Definition closing : World (num := Z) := steps close_in_flight (new_stream 1).

Lemma closing_reachable : reachable closing.
Proof.
  apply reachable_steps; [apply new_stream_reachable; lia | vm_compute; reflexivity].
Qed.

(** C5 fails on the code once the close request has moved to the in-flight
    slot: [writer.close()] returned a pending promise on a writable stream,
    and the later [writer.write(chunk)] is accepted: its promise is pending
    and the chunk is passed to the sink's [write]. *)
Theorem C5_write_accepted_while_close_in_flight (chunk : nat) :
  reachable closing
  /\ _state (stream (new_stream 1)) = writable
  /\ snd (run (writer_close 0) (steps [sink_settles 0 fulfils; stream_getWriter] (new_stream 1)))
     = Normal (RPromise 2)
  /\ promises closing !! 2 = Some Pending
  /\ _inflightCloseRequest (stream closing) = Some {| rq_promise := 2 |}
  /\ exists w',
       run (writer_write 0 (VUser chunk)) closing = (w', Normal (RPromise 3))
       /\ promises w' !! 3 = Some Pending
       /\ sinkCalls w' = [SinkStart; SinkClose; SinkWrite (VUser chunk)].
Proof.
  split; [exact closing_reachable |].
  repeat (split; [vm_compute; reflexivity |]).
  eexists. split; [vm_compute; reflexivity |]. split; vm_compute; reflexivity.
Qed.

(** C2 fails on the code: after that write both in-flight slots are set, and
    two sink operations are pending at once. *)
Theorem C2_write_and_close_both_in_flight :
  let w := steps (write_after_close (VUser 7)) (new_stream 1) in
  reachable w
  /\ _inflightWriteRequest (stream w) = Some {| rq_promise := 3 |}
  /\ _inflightCloseRequest (stream w) = Some {| rq_promise := 2 |}
  /\ tasks w = [TClose; TWrite].
Proof.
  split; [| repeat split; vm_compute; reflexivity].
  apply reachable_steps; [apply new_stream_reachable; lia | vm_compute; reflexivity].
Qed.

(** C10 fails on the code in such a state when the high-water mark is 0:
    the stream is writable, [controller.error(e)] marks it errored and then
    fails an assertion of [defaultWriterReadyPromiseReject] before it
    reaches [controller._queue = []]; the chunk stays queued. *)
Theorem C10_error_leaves_chunk_queued :
  let w := steps (write_after_close (VUser 7)) (new_stream 0) in
  reachable w
  /\ _state (stream w) = writable
  /\ _queue (controller w) = [(QChunk (VUser 7), 1%Z)]
  /\ exists w',
       run (controller_error (VUser 9)) w = (w', Throw (VError 0 AssertionError no_message))
       /\ _state (stream w') = errored
       /\ _queue (controller w') = [(QChunk (VUser 7), 1%Z)].
Proof.
  split; [| split; [vm_compute; reflexivity | split; [vm_compute; reflexivity |]]].
  - apply reachable_steps; [apply new_stream_reachable; lia | vm_compute; reflexivity].
  - eexists. split; [vm_compute; reflexivity |]. split; vm_compute; reflexivity.
Qed.

(** A second scenario: [writer.write(7)], then [writer.close()] while the
    write is pending, then the writer releases its lock and the write
    fulfils.  [sink.close()] is now pending, the queue is empty and the
    stream has no writer. *)
Definition close_in_flight_unlocked : list Label :=
  [sink_settles 0 fulfils; stream_getWriter; writer_write 0 (VUser 7); writer_close 0;
   writer_releaseLock 0; sink_settles 0 fulfils].

Definition closing_unlocked : World (num := Z) :=
  steps close_in_flight_unlocked (new_stream 1).

Lemma closing_unlocked_reachable : reachable closing_unlocked.
Proof.
  apply reachable_steps; [apply new_stream_reachable; lia | vm_compute; reflexivity].
Qed.

(** C7 fails on the code for a writer constructed while the close request is
    in flight.  The stream is writable without pending abort, a close has
    been requested, the queue is empty and the desired size is 1, so the
    table gives a resolved ready promise.  The constructor tests only
    [_closeRequest], which is empty again, and the field [_backpressure],
    which is still true from the write: the ready promise of the new writer
    is pending, and it is still pending after [sink.close()] has fulfilled
    and the stream is closed. *)
Theorem C7_ready_pending_while_close_in_flight :
  reachable closing_unlocked
  /\ _state (stream closing_unlocked) = writable
  /\ _writer (stream closing_unlocked) = None
  /\ _pendingAbortRequest (stream closing_unlocked) = None
  /\ _closeRequest (stream closing_unlocked) = None
  /\ _inflightCloseRequest (stream closing_unlocked) = Some {| rq_promise := 4 |}
  /\ _queue (controller closing_unlocked) = []
  /\ WritableStreamDefaultControllerGetDesiredSize (controller closing_unlocked) = 1%Z
  /\ WritableStreamDefaultControllerGetBackpressure (controller closing_unlocked) = false
  /\ _backpressure (stream closing_unlocked) = Some true
  /\ exists w' wr,
       WritableStreamDefaultWriter_constructor closing_unlocked = (w', Normal 1)
       /\ writers w' !! 1 = Some wr
       /\ _ownerWritableStream wr = true
       /\ promises w' !! _readyPromise wr = Some Pending
       /\ promises w' !! _closedPromise wr = Some Pending
       /\ exists w'',
            run (sink_settles 0 fulfils) w' = (w'', Normal RUnit)
            /\ _state (stream w'') = closed
            /\ promises w'' !! _closedPromise wr = Some (Fulfilled VUndefined)
            /\ exists wr', writers w'' !! 1 = Some wr'
                 /\ _readyPromise wr' = _readyPromise wr
                 /\ promises w'' !! _readyPromise wr' = Some Pending.
Proof.
  split; [exact closing_unlocked_reachable |].
  repeat (split; [vm_compute; reflexivity |]).
  eexists _, _. split; [vm_compute; reflexivity |].
  repeat (split; [vm_compute; reflexivity |]).
  eexists. split; [vm_compute; reflexivity |].
  repeat (split; [vm_compute; reflexivity |]).
  eexists. repeat split; vm_compute; reflexivity.
Qed.

End InflightClose.

(** ** The properties above on concrete streams *)

Module Examples.
Import Scenario.

(** The stream has closed while its writer still holds the lock. *)
Definition closed_locked : World (num := Z) :=
  steps (close_in_flight ++ [sink_settles 0 fulfils]) (new_stream 1).

Lemma closed_locked_reachable : reachable closed_locked.
Proof.
  apply reachable_steps; [apply new_stream_reachable; lia | vm_compute; reflexivity].
Qed.

Lemma C1_witness :
  reachable closed_locked
  /\ _state (stream closed_locked) <> writable
  /\ (forall l, _state (stream (step l closed_locked)) = _state (stream closed_locked))
  /\ (forall ls, _state (stream (steps ls closed_locked)) = _state (stream closed_locked)).
Proof.
  split; [exact closed_locked_reachable |].
  split; [vm_compute; discriminate |].
  apply (C1_closed_and_errored_are_final closed_locked).
  - exact closed_locked_reachable.
  - vm_compute; discriminate.
Defined.

Definition the_writer_0 : Writer :=
  {| _ownerWritableStream := true;
     _readyPromise := 0; _readyPromise_resolve := None; _readyPromise_reject := None;
     _closedPromise := 1; _closedPromise_resolve := None; _closedPromise_reject := None |}.

Lemma C9_witness :
  reachable closed_locked
  /\ writers closed_locked !! 0 = Some the_writer_0
  /\ WritableStreamDefaultWriter_desiredSize 0 closed_locked
     = (closed_locked, Normal (Some 0%Z)).
Proof.
  split; [exact closed_locked_reachable |].
  split; [vm_compute; reflexivity |].
  destruct (C9_desiredSize closed_locked 0 the_writer_0 closed_locked_reachable)
    as [Hheld _]; [vm_compute; reflexivity |].
  destruct (Hheld eq_refl) as (size & Hrun & _ & Hclosed & _).
  rewrite Hrun. now rewrite (Hclosed eq_refl).
Defined.

(** A chunk of size 1 has just been written to a stream with high-water mark
    1: the queue holds it while [sink.write] is in flight. *)
Definition ready_to_write : World (num := Z) :=
  steps [sink_settles 0 fulfils; stream_getWriter] (new_stream 1).

Definition the_writer_after_write : Writer :=
  {| _ownerWritableStream := true;
     _readyPromise := 3; _readyPromise_resolve := Some 3; _readyPromise_reject := Some 3;
     _closedPromise := 1; _closedPromise_resolve := Some 1; _closedPromise_reject := Some 1 |}.

Lemma ready_to_write_reachable : reachable ready_to_write.
Proof.
  apply reachable_steps; [apply new_stream_reachable; lia | vm_compute; reflexivity].
Qed.

Lemma C3_witness :
  let w' := step (writer_write 0 (VUser 7)) ready_to_write in
  promises w' !! _readyPromise the_writer_after_write = Some Pending
  <-> nle0 (nsub (_strategyHWM (controller w'))
                 (GetTotalQueueSize (_queue (controller w')))) = true.
Proof.
  apply (proj1 C3_backpressure ready_to_write (writer_write 0 (VUser 7)) 0
           the_writer_after_write).
  - exact ready_to_write_reachable.
  - vm_compute; reflexivity.
  - vm_compute; discriminate.
  - vm_compute; reflexivity.
  - vm_compute; reflexivity.
  - vm_compute; reflexivity.
  - vm_compute; reflexivity.
  - vm_compute; reflexivity.
Defined.

(** [writer.close()] is in flight and [writer.abort(5)] has been called. *)
Definition abort_while_closing : World (num := Z) :=
  steps (close_in_flight ++ [writer_abort 0 (VUser 5)]) (new_stream 1).

Lemma abort_while_closing_reachable : reachable abort_while_closing.
Proof.
  apply reachable_steps; [apply new_stream_reachable; lia | vm_compute; reflexivity].
Qed.

Lemma C6_witness :
  reachable abort_while_closing
  /\ exists w',
       run (sink_settles 0 fulfils) abort_while_closing = (w', Normal RUnit)
       /\ promises w' !! 2 = Some (Fulfilled VUndefined)
       /\ _state (stream w') = errored
       /\ promises w' !! 4 = Some (Fulfilled VUndefined).
Proof.
  split; [exact abort_while_closing_reachable |].
  destruct (C6_close_fulfils_while_abort_pending abort_while_closing 0
              {| rq_promise := 2 |} {| ar_promise := 4; _reason := VUser 5 |}
              abort_while_closing_reachable)
    as (w' & Hrun & _ & Hclose & _ & Hst & _ & _ & Habort & _);
    try (vm_compute; reflexivity).
  exists w'. repeat split; assumption.
Defined.

(** [stream.abort(5)] on a stream whose writer holds the lock. *)
Lemma C4_witness :
  exists w',
    WritableStream_abort (VUser 5) closed_locked
    = (w', Normal (length (promises closed_locked)))
    /\ promises w' !! length (promises closed_locked)
       = Some (Rejected (VError (nextError closed_locked) TypeError
                           "Cannot abort a stream that already has a writer")).
Proof.
  destruct (C4_abort closed_locked (VUser 5)) as [Hlocked _].
  destruct Hlocked as (w' & Hrun & Hp & _); [vm_compute; discriminate |].
  exists w'. split; [exact Hrun | exact Hp].
Defined.

(** C4 as stated does not hold: on a closed stream whose writer still holds
    the lock, [stream.abort(reason)] does not return a promise fulfilled with
    [undefined]; the lock is checked first. *)
Lemma C4_closed_and_locked_rejects :
  ~ (forall (w : World (num := Z)) (reason : Value),
       reachable w -> _state (stream w) = closed ->
       exists w' p,
         WritableStream_abort reason w = (w', Normal p)
         /\ promises w' !! p = Some (Fulfilled VUndefined)).
Proof.
  intros H.
  destruct (H closed_locked VUndefined closed_locked_reachable) as (w' & p & Hrun & Hp).
  - vm_compute; reflexivity.
  - vm_compute in Hrun. injection Hrun as <- <-. vm_compute in Hp. discriminate.
Qed.

End Examples.

(** * Further properties of the code

    Properties of the functions that the claims above leave out, read off the
    source. *)

(** ** What is asked of the sink

    [sinkCalls] records the calls made on the sink and [tasks] the promises
    of the sink that have not settled.  The invariant counts them. *)

Section SinkProtocol.
Context {num : Type} {JSN : JSNumber num}.
Abbreviation World := (World (num:=num)).

(** How many elements of [l] satisfy [f]. *)
Fixpoint count_of {A} (f : A -> bool) (l : list A) : nat :=
  match l with
  | [] => 0
  | a :: l' => (if f a then 1 else 0) + count_of f l'
  end.

Definition is_start_call (c : SinkCall) : bool :=
  match c with SinkStart => true | _ => false end.
Definition is_write_call (c : SinkCall) : bool :=
  match c with SinkWrite _ => true | _ => false end.
Definition is_close_call (c : SinkCall) : bool :=
  match c with SinkClose => true | _ => false end.
Definition is_abort_call (c : SinkCall) : bool :=
  match c with SinkAbort _ => true | _ => false end.
Definition is_write_task (t : Task) : bool :=
  match t with TWrite => true | _ => false end.
Definition is_close_task (t : Task) : bool :=
  match t with TClose => true | _ => false end.
Definition is_start_task (t : Task) : bool :=
  match t with TStart => true | _ => false end.

(** [start] is called first and once; nothing is written or closed before
    [_started]; there is at most one pending write, and only with a request
    in flight, and the same for close; [abort] is called at most once and
    not while the stream is writable; [close] is called at most once, and on
    a writable stream only with the request in flight. *)
Record sink_protocol (w : World) : Prop := {
  sp_start_first : head (sinkCalls w) = Some SinkStart;
  sp_start_once : count_of is_start_call (sinkCalls w) = 1;
  sp_before_start :
    _started (controller w) = false ->
    count_of is_write_call (sinkCalls w) = 0 /\ count_of is_close_call (sinkCalls w) = 0;
  sp_one_write : count_of is_write_task (tasks w) <= 1;
  sp_write_inflight :
    _inflightWriteRequest (stream w) = None -> count_of is_write_task (tasks w) = 0;
  sp_one_close : count_of is_close_task (tasks w) <= 1;
  sp_close_inflight :
    _inflightCloseRequest (stream w) = None -> count_of is_close_task (tasks w) = 0;
  sp_one_abort : count_of is_abort_call (sinkCalls w) <= 1;
  sp_abort_errors :
    _state (stream w) = writable -> count_of is_abort_call (sinkCalls w) = 0;
  sp_one_start : count_of is_start_task (tasks w) <= 1;
  sp_started :
    _started (controller w) = true -> count_of is_start_task (tasks w) = 0;
  sp_one_close_call : count_of is_close_call (sinkCalls w) <= 1;
  sp_close_call_inflight :
    _state (stream w) = writable -> _inflightCloseRequest (stream w) = None ->
    count_of is_close_call (sinkCalls w) = 0
}.

(** The attached writer of a writable stream can still settle its closed
    promise. *)
Definition closed_promise_held (w : World) : Prop :=
  _state (stream w) = writable ->
  forall x, _writer (stream w) = Some x ->
  exists wr, writers w !! x = Some wr
    /\ _closedPromise_resolve wr <> None /\ _closedPromise_reject wr <> None.

Lemma count_of_app {A} (f : A -> bool) (l k : list A) :
  count_of f (l ++ k) = count_of f l + count_of f k.
Proof. induction l as [|a l IH]; simpl; [reflexivity |]. rewrite IH. lia. Qed.

Lemma count_of_remove {A} (f : A -> bool) (l : list A) i a :
  l !! i = Some a ->
  count_of f l = (if f a then 1 else 0) + count_of f (take i l ++ drop (S i) l).
Proof.
  revert i. induction l as [|b l IH]; intros [|i] H; simpl in *; try discriminate.
  - injection H as ->. rewrite drop_0. reflexivity.
  - rewrite (IH _ H). lia.
Qed.

Lemma head_snoc {A} (l : list A) a b : head l = Some a -> head (l ++ [b]) = Some a.
Proof. destruct l; simpl; [discriminate | auto]. Qed.

(** Every operation keeps the protocol. *)
Lemma sink_protocol_step l (w : World) :
  no_abort_when_closed w -> closed_promise_held w ->
  sink_protocol w -> sink_protocol (step l w).
Proof.
  unfold step. intros Hc Hwf H. apply (wp_run _ sink_protocol).
  unfold no_abort_when_closed in Hc. unfold closed_promise_held in Hwf.
  destruct H as [H1 H2 H3 H4 H5 H6 H7 H8 H9 Ha Hb Hd He].
  destruct_world w.
  destruct l; unfold run.
  all: (wp_go; world_simpl).
  all: match goal with
       | Ht : ?ts !! ?i = Some ?t |- _ =>
           rewrite (count_of_remove is_write_task _ _ _ Ht) in H4, H5;
           rewrite (count_of_remove is_close_task _ _ _ Ht) in H6, H7;
           rewrite (count_of_remove is_start_task _ _ _ Ht) in Ha, Hb
       | _ => idtac
       end; simpl in *.
  all: try match goal with
       | H : head ?l = None, H' : (length ?l =? 0) = false |- _ =>
           destruct l; simpl in *; discriminate
       end.
  all: rewrite ?count_of_app in *; simpl in *.
  all: (split; world_simpl; rewrite ?count_of_app; simpl;
    try (apply head_snoc; try apply head_snoc); try assumption;
    intros; try discriminate; subst;
    repeat match goal with
    | H : ?a = ?a -> _ |- _ => specialize (H eq_refl)
    | H : _ /\ _ |- _ => destruct H
    end; try discriminate; try split; try lia;
    try match goal with
        | H : head ?l = None, H' : (length ?l =? 0) = false |- _ =>
            destruct l; simpl in *; discriminate
        end;
    try (edestruct Hwf as (? & ? & ? & ?); try reflexivity; congruence)).
Qed.
End SinkProtocol.

(** ** The lock *)

Section Lock.
Context {num : Type} {JSN : JSNumber num}.
Abbreviation World := (World (num:=num)).

(** Only the attached writer refers to the stream ... *)
Definition owners_attached (w : World) : Prop :=
  forall y wr, writers w !! y = Some wr -> _ownerWritableStream wr = true ->
    _writer (stream w) = Some y.

(** ... and the attached writer does. *)
Definition attached_owns (w : World) : Prop :=
  forall x, _writer (stream w) = Some x ->
    exists wr, writers w !! x = Some wr /\ _ownerWritableStream wr = true.

Definition lock_consistent (w : World) : Prop := owners_attached w /\ attached_owns w.

Lemma attached_alter (f : Writer -> Writer) x (ws : list Writer) (W : option nat) :
  (forall wr, _ownerWritableStream (f wr) = _ownerWritableStream wr) ->
  (forall n, W = Some n -> exists wr, ws !! n = Some wr /\ _ownerWritableStream wr = true) ->
  forall n, W = Some n ->
    exists wr, alter f x ws !! n = Some wr /\ _ownerWritableStream wr = true.
Proof.
  intros Hf H n Hn. destruct (H n Hn) as (wr & Hl & Ho).
  destruct (decide (x = n)) as [->|Hne].
  - exists (f wr). rewrite list_lookup_alter_eq, Hl. split; [reflexivity |]. now rewrite Hf.
  - exists wr. rewrite list_lookup_alter_ne by exact Hne. split; assumption.
Qed.

Lemma lock_consistent_step l (w : World) : lock_consistent w -> lock_consistent (step l w).
Proof.
  unfold step. intros [HW2 HW3]. apply (wp_run _ lock_consistent).
  unfold owners_attached, attached_owns in *.
  destruct_world w.
  destruct l; unfold run.
  all: (wp_go; world_simpl).
  all: try match goal with
       | H : _ !! ?x = Some ?wr0, Ho : _ownerWritableStream ?wr0 = true |- _ =>
           let E := fresh in
           pose proof (HW2 _ _ H Ho) as E; first [discriminate E | injection E as E; subst]
       end.
  all: (unfold lock_consistent, owners_attached, attached_owns; split; world_simpl;
    [ try rewrite ?alter_snoc; repeat (apply owner_alter; [intros []; reflexivity |]);
      try first [ exact HW2 | apply owner_snoc; exact HW2
            | repeat match goal with
              | H : (_ =? _) = true |- _ => apply Nat.eqb_eq in H; subst
              end;
              apply owner_release; [intros []; reflexivity |];
              repeat (apply owner_alter; [intros []; reflexivity |]); exact HW2 ]
    | rewrite ?alter_snoc;
      try first [ intros ? ?; discriminate
            | repeat (apply attached_alter; [intros []; reflexivity |]); exact HW3
            | intros ? [= <-]; rewrite lookup_snoc_last; eexists; split; reflexivity ] ]).
Qed.
End Lock.

(** ** The queue and the write requests *)

Section QueueConsistency.
Context {num : Type} {JSN : JSNumber num}.
Abbreviation World := (World (num:=num)).

(** The record of a chunk, not the close marker. *)
Definition is_chunk_record (r : WriteRecord * num) : bool :=
  match fst r with QChunk _ => true | QClose => false end.

(** Chunk records only, but for the close marker, which can only be last, and
    only while the close request is queued. *)
Fixpoint close_last (q : list (WriteRecord * num)) (closing : bool) : bool :=
  match q with
  | [] => true
  | (QChunk _, _) :: q' => close_last q' closing
  | (QClose, _) :: q' => match q' with [] => closing | _ :: _ => false end
  end.

(** As many chunk records as unfinished writes; the close marker last, and
    only while the close request is queued; a write in flight only after
    [start]. *)
Record queue_consistent (w : World) : Prop := {
  qc_chunks :
    count_of is_chunk_record (_queue (controller w))
    = length (_writeRequests (stream w))
      + (if is_set (_inflightWriteRequest (stream w)) then 1 else 0);
  qc_shape : close_last (_queue (controller w)) (is_set (_closeRequest (stream w))) = true;
  qc_started : is_set (_inflightWriteRequest (stream w)) = true -> _started (controller w) = true
}.

Definition queue_matches_requests (w : World) : Prop :=
  _state (stream w) = writable -> queue_consistent w.

Lemma close_last_snoc_chunk q c sz b :
  close_last q false = true -> close_last (q ++ [(QChunk c, sz)]) b = true.
Proof.
  induction q as [|[[|c'] sz'] q IH]; simpl; intros H; auto.
  destruct q; discriminate.
Qed.

Lemma close_last_snoc_close q sz :
  close_last q false = true -> close_last (q ++ [(QClose, sz)]) true = true.
Proof.
  induction q as [|[[|c'] sz'] q IH]; simpl; intros H; auto.
  destruct q; discriminate.
Qed.

Lemma close_last_weaken q b : close_last q false = true -> close_last q b = true.
Proof.
  induction q as [|[[|c'] sz'] q IH]; simpl; intros H; auto.
  destruct q; discriminate.
Qed.

Lemma queue_matches_requests_step l (w : World) :
  queue_matches_requests w -> queue_matches_requests (step l w).
Proof.
  unfold step. intros H. apply (wp_run _ queue_matches_requests).
  unfold queue_matches_requests in *.
  destruct_world w.
  destruct l; unfold run.
  all: (wp_go; world_simpl).
  all: (try discriminate;
    repeat match goal with
    | Hh : ?a = ?a -> _ |- _ => specialize (Hh eq_refl)
    | Hh : ?x = writable -> _, H0 : ?x = writable |- _ => specialize (Hh H0)
    end;
    try match goal with
        | Hh : queue_consistent _ |- _ =>
            destruct Hh as [Hq1 Hq2 Hq3]; world_simpl_in Hq1; world_simpl_in Hq2;
            world_simpl_in Hq3
        end).
  all: (try (split; world_simpl; assumption)).
  all: (repeat match goal with
             | H : _ = _ |- _ => discriminate H
             | H : (_, _) = (_, _) |- _ => injection H as ? ?; subst
             | H : Some _ = Some _ |- _ => injection H as ?; subst
             | H : ?x = QClose |- _ => is_var x; subst x
             | H : ?x = QChunk _ |- _ => is_var x; subst x
             | H : ?q ++ [_] = [] |- _ => destruct q; discriminate H
             | H : ?q ++ [_] = _ :: _ |- _ =>
                 destruct q; cbn [app] in H; injection H as ? ?; subst
             | H : PeekQueueValue (?q ++ _) = _ |- _ =>
                 is_var q; destruct q as [|[? ?] ?]; cbn [app PeekQueueValue] in H
             | H : PeekQueueValue _ = _ |- _ => progress cbn [PeekQueueValue] in H
             | H : (_ =? 0) = true |- _ => apply Nat.eqb_eq in H
             | H : (_ =? 0) = false |- _ => apply Nat.eqb_neq in H
             | H : length ?l = 0 |- _ => is_var l; destruct l; [| discriminate H]
             | H : length (_ ++ [_]) = 0 |- _ => rewrite length_app in H; simpl in H; lia
             | p : (WriteRecord * num)%type |- _ => destruct p as [[|?] ?]
             end).
  all: (cbn [count_of close_last is_chunk_record fst is_set length app head tail] in *;
             rewrite ?count_of_app, ?length_app in *;
             cbn [count_of close_last is_chunk_record fst is_set length app head tail] in *).
  all: (do 4 (try match goal with
             | H : ?a <> ?a |- _ => exfalso; apply H; reflexivity
             | H : match ?l with [] => _ | _ :: _ => _ end = true |- _ =>
                 is_var l; destruct l; try discriminate H
             | H : length ?l <> 0 |- _ =>
                 is_var l; destruct l; [exfalso; apply H; reflexivity |]
             | w : WriteRecord |- _ => destruct w; try discriminate
             | |- context [head (?l ++ _)] => is_var l; destruct l
             | |- context [head ?l] => is_var l; destruct l
             | H : length ?l + _ <> 0 |- _ => clear H
             | H : S _ <> 0 |- _ => clear H
             end);
             cbn [count_of close_last is_chunk_record fst is_set length app head tail]
               in Hq1, Hq2, Hq3 |- *;
             cbv beta iota delta [is_set] in Hq1, Hq2, Hq3).
  all: (try (split; world_simpl;
                  cbn [count_of close_last is_chunk_record fst is_set length app head tail];
                  rewrite ?count_of_app, ?length_app;
                  cbn [count_of close_last is_chunk_record fst is_set length app head tail];
                  first [ assumption | lia | reflexivity
                        | apply close_last_snoc_chunk; assumption
                        | apply close_last_snoc_close; assumption
                        | apply close_last_weaken; assumption
                        | intros; auto; discriminate ])).
Qed.
End QueueConsistency.

(** ** What single operations do

    The theorems below run an operation, or two in a row, on a reachable
    world and read the outcome off the final world; the invariant of
    writable streams says which promises are pending and distinct. *)

Section Outcomes.
Context {num : Type} {JSN : JSNumber num}.
Abbreviation World := (World (num:=num)).

(** A computation that cannot throw returns; here with the value it returns. *)
Lemma wp_returns_value {A} (m : M A) (P : World -> Prop) (a0 : A) (w : World) :
  wp m (fun a w' => a = a0 /\ P w') (fun _ => False) w ->
  exists w', m w = (w', Normal a0) /\ P w'.
Proof.
  unfold wp. destruct (m w) as [w' [a|e]]; [| tauto]. intros [-> H]. eauto.
Qed.
End Outcomes.

(** The facts about the final world, one by one. *)
Ltac op_finish :=
  norm_own; try absurd_settle;
  repeat match goal with |- _ /\ _ => split end; try reflexivity;
  try (intros; hyp_simpl; simpl; repeat match goal with |- _ /\ _ => split end);
  try reflexivity;
  try solve [lazymatch goal with |- ?h !! ?p = Some Pending => change (pend h p) end;
             with_own solve_pend];
  try solve [solve_settled];
  try solve [rewrite ?alter_snoc, ?list_lookup_alter_eq;
             repeat match goal with
             | Hx : ?l !! ?x = Some _ |- context [?l !! ?x] => rewrite Hx
             end;
             simpl; eexists; split; [reflexivity |]; simpl;
             repeat match goal with |- _ /\ _ => split end;
             first [reflexivity | solve_settled]].

Section CloseOutcomes.
Context {num : Type} {JSN : JSNumber num}.
Abbreviation World := (World (num:=num)).

(** X11.  When the promise of [sink.close] fulfils on a writable stream with
    no pending abort request, the continuation returns, the promise of the
    close request in flight, pending before, is fulfilled with [undefined],
    the stream is closed, and the closed promise of the attached writer,
    pending before, is fulfilled with [undefined].  The queue and the calls
    made on the sink are unchanged. *)
Theorem close_fulfils_closes (w : World) (i : nat) (closeRequest : Request) :
  reachable w ->
  tasks w !! i = Some TClose ->
  _state (stream w) = writable ->
  _inflightCloseRequest (stream w) = Some closeRequest ->
  _pendingAbortRequest (stream w) = None ->
  exists w',
    run (sink_settles i fulfils) w = (w', Normal RUnit)
    /\ promises w !! rq_promise closeRequest = Some Pending
    /\ promises w' !! rq_promise closeRequest = Some (Fulfilled VUndefined)
    /\ _inflightCloseRequest (stream w') = None
    /\ _state (stream w') = closed
    /\ controller w' = controller w
    /\ sinkCalls w' = sinkCalls w
    /\ (forall x wr, _writer (stream w) = Some x -> writers w !! x = Some wr ->
        promises w !! _closedPromise wr = Some Pending
        /\ promises w' !! _closedPromise wr = Some (Fulfilled VUndefined)).
Proof.
  intros Hr Hi Hst Hifc Hpar.
  pose proof (reachable_INV w Hr Hst) as [HA HW HW2 HBP].
  apply wp_returns_value.
  destruct_world w. subst.
  unfold run, settle_task.
  wp_xgo.
  all: op_finish.
Qed.

(** X12.  When the promise of [sink.close] rejects on a writable stream,
    and the ready promise of the attached writer is not pending if no abort
    is pending (the code then resets the ready promise to a rejected one,
    which it asserts to be settled), the continuation returns, the stream is
    errored with that reason, and the promise of the close request, that of
    a pending abort request and the writer's closed promise are rejected
    with it.  The sink is not called. *)
Theorem close_rejects_errors (w : World) (i : nat) (closeRequest : Request) (reason : Value) :
  reachable w ->
  tasks w !! i = Some TClose ->
  _state (stream w) = writable ->
  _inflightCloseRequest (stream w) = Some closeRequest ->
  (_pendingAbortRequest (stream w) = None ->
   forall x wr, _writer (stream w) = Some x -> writers w !! x = Some wr ->
     promises w !! _readyPromise wr <> Some Pending) ->
  exists w',
    run (sink_settles i (rejects reason)) w = (w', Normal RUnit)
    /\ promises w' !! rq_promise closeRequest = Some (Rejected reason)
    /\ _inflightCloseRequest (stream w') = None
    /\ _state (stream w') = errored
    /\ _storedError (stream w') = reason
    /\ (forall abortRequest, _pendingAbortRequest (stream w) = Some abortRequest ->
        promises w' !! ar_promise abortRequest = Some (Rejected reason))
    /\ _pendingAbortRequest (stream w') = None
    /\ sinkCalls w' = sinkCalls w
    /\ (forall x wr, _writer (stream w) = Some x -> writers w !! x = Some wr ->
        promises w' !! _closedPromise wr = Some (Rejected reason)).
Proof.
  intros Hr Hi Hst Hifc Hready.
  pose proof (reachable_INV w Hr Hst) as [HA HW HW2 HBP].
  apply wp_returns_value.
  destruct_world w. subst.
  unfold run, settle_task.
  wp_xgo.
  all: op_finish.
  exfalso. eapply Hready; [reflexivity | eassumption |]. simpl.
  lazymatch goal with |- ?h !! ?p = Some Pending => change (pend h p) end.
  with_own solve_pend.
Qed.
End CloseOutcomes.

Section ReleaseLock.
Context {num : Type} {JSN : JSNumber num}.
Abbreviation World := (World (num:=num)).
Local Open Scope string_scope.

(** X17.  [writer.releaseLock()] on the attached writer of a writable stream
    with no close requested and no abort pending returns and detaches the
    writer: the stream has no writer, the writer no stream, and the
    writer's closed and ready promises are rejected with a new [TypeError].
    Nothing else changes: the queue, the write requests, the request in
    flight and the pending sink operations stay as they are. *)
Theorem releaseLock_detaches (w : World) (x : nat) (wr : Writer) :
  reachable w ->
  _state (stream w) = writable ->
  _writer (stream w) = Some x -> writers w !! x = Some wr ->
  _pendingAbortRequest (stream w) = None ->
  _closeRequest (stream w) = None -> _inflightCloseRequest (stream w) = None ->
  let releasedError :=
    VError (nextError w) TypeError
      "Writer was released and can no longer be used to monitor the stream's closedness" in
  exists w',
    run (writer_releaseLock x) w = (w', Normal RUnit)
    /\ stream w' = set_writer None (stream w)
    /\ controller w' = controller w
    /\ tasks w' = tasks w /\ sinkCalls w' = sinkCalls w
    /\ promises w' !! _closedPromise wr = Some (Rejected releasedError)
    /\ exists wr',
         writers w' !! x = Some wr'
         /\ _ownerWritableStream wr' = false
         /\ _closedPromise wr' = _closedPromise wr
         /\ promises w' !! _readyPromise wr' = Some (Rejected releasedError).
Proof.
  intros Hr Hst Hw Hwr Hpar Hcr Hifc releasedError. subst releasedError.
  pose proof (reachable_INV w Hr Hst) as [HA HW HW2 HBP].
  apply wp_returns_value.
  destruct_world w. subst.
  unfold run.
  wp_xgo.
  all: try match goal with
       | H : option_nat_eqb (Some ?a) (Some ?a) = false |- _ =>
           simpl in H; rewrite Nat.eqb_refl in H; discriminate H
       end.
  all: op_finish.
Qed.
End ReleaseLock.

(** *** Rejecting all queued write requests

    The loop of [WritableStreamRejectPromisesInReactionToError], run on
    pending and distinct promises. *)

Section RejectAll.
Context {num : Type} {JSN : JSNumber num}.
Abbreviation World := (World (num:=num)).

(** The store after rejecting the promises [l] with [e], in order. *)
Definition reject_all (e : Value) (l : list nat) (h : list PromiseState) : list PromiseState :=
  foldl (fun h p => <[p := Rejected e]> h) h l.

Lemma reject_all_cons e q l (h : list PromiseState) :
  reject_all e (q :: l) h = reject_all e l (<[q := Rejected e]> h).
Proof. reflexivity. Qed.

Lemma lookup_reject_all_notin e l (h : list PromiseState) p :
  p ∉ l -> reject_all e l h !! p = h !! p.
Proof.
  revert h. induction l as [|q l IH]; intros h Hp; [reflexivity |].
  apply not_elem_of_cons in Hp as [Hne Hp]. rewrite reject_all_cons, IH by exact Hp.
  now apply list_lookup_insert_ne.
Qed.

Lemma length_reject_all e l (h : list PromiseState) : length (reject_all e l h) = length h.
Proof.
  revert h. induction l as [|q l IH]; intros h; [reflexivity |].
  now rewrite reject_all_cons, IH, length_insert.
Qed.

Lemma lookup_reject_all_in e l (h : list PromiseState) p :
  p ∈ l -> p < length h -> reject_all e l h !! p = Some (Rejected e).
Proof.
  revert h. induction l as [|q l IH]; intros h Hp Hlt.
  - now apply elem_of_nil in Hp.
  - rewrite reject_all_cons. destruct (decide (p ∈ l)) as [Hin | Hnin].
    + apply IH; [exact Hin | now rewrite length_insert].
    + apply elem_of_cons in Hp as [-> | Hp]; [| contradiction].
      rewrite (lookup_reject_all_notin e l _ q Hnin). now apply list_lookup_insert_eq.
Qed.

Lemma pend_reject_all e l (h : list PromiseState) p :
  p ∉ l -> pend h p -> pend (reject_all e l h) p.
Proof. intros Hp H. unfold pend. now rewrite lookup_reject_all_notin. Qed.

Lemma for_each_reject (l : list Request) e (w : World) :
  Forall (pend (promises w)) (rq_promise <$> l) -> NoDup (rq_promise <$> l) ->
  for_each l (fun r => call_reject (rq_promise r) e) w
  = (with_promises (reject_all e (rq_promise <$> l)) w, Normal tt).
Proof.
  revert w. induction l as [|r l IH]; intros w Hp Hnd.
  - destruct w; reflexivity.
  - rewrite fmap_cons in Hp, Hnd. apply Forall_cons in Hp as [Hr Hp].
    apply NoDup_cons in Hnd as [Hnin Hnd].
    cbn [for_each]. unfold mbind at 1. unfold M_bind at 1.
    unfold call_reject, settle. unfold pend in Hr. rewrite Hr.
    rewrite IH.
    + destruct w; reflexivity.
    + destruct w; simpl in *. now apply Forall_pend_insert.
    + exact Hnd.
Qed.

Lemma wp_for_each_reject (l : list Request) e Q E (w : World) :
  Forall (pend (promises w)) (rq_promise <$> l) -> NoDup (rq_promise <$> l) ->
  Q tt (with_promises (reject_all e (rq_promise <$> l)) w) ->
  wp (for_each l (fun r => call_reject (rq_promise r) e)) Q E w.
Proof. intros Hp Hnd HQ. unfold wp. now rewrite for_each_reject. Qed.

Lemma rejected_all_ids e (ids : list nat) (l : list Request) (h : list PromiseState) :
  (forall r, r ∈ l -> rq_promise r ∈ ids) ->
  Forall (pend h) ids ->
  Forall (fun r => reject_all e ids h !! rq_promise r = Some (Rejected e)) l.
Proof.
  intros Hsub Hp. apply Forall_forall. intros r Hr. apply lookup_reject_all_in.
  - now apply Hsub.
  - rewrite Forall_forall in Hp. eapply pend_lt, Hp. now apply Hsub.
Qed.

Lemma Forall_settled_insert (P : Request -> nat) (h : list PromiseState) q st st' (l : list Request) :
  st' <> Pending -> pend h q ->
  Forall (fun r => h !! P r = Some st') l ->
  Forall (fun r => <[q:=st]> h !! P r = Some st') l.
Proof.
  intros Hne Hq H. eapply Forall_impl; [exact H |].
  intros r Hr. simpl in *. eapply settled_insert; eauto.
Qed.

Lemma Forall_settled_app (P : Request -> nat) (h k : list PromiseState) st (l : list Request) :
  Forall (fun r => h !! P r = Some st) l ->
  Forall (fun r => (h ++ k) !! P r = Some st) l.
Proof.
  intros H. eapply Forall_impl; [exact H |]. intros r Hr. simpl in *.
  now apply lookup_app_l_Some.
Qed.

Lemma lookup_fresh_None (h : list PromiseState) p : length h <= p -> h !! p = None.
Proof. apply lookup_ge_None_2. Qed.
End RejectAll.

Ltac len_norm :=
  repeat (progress rewrite ?length_app, ?length_insert, ?length_reject_all).

Ltac solve_notin Hnd Hp :=
  lazymatch goal with
  | |- _ ∉ [] => apply not_elem_of_nil
  | |- _ ∉ _ :: _ => apply not_elem_of_cons; split; [solve_ne Hnd Hp | solve_notin Hnd Hp]
  | |- _ ∉ _ ++ _ => apply not_elem_of_app; split; solve_notin Hnd Hp
  | |- _ ∉ _ =>
      first [ eapply (NoDup_not_in _ _ _ Hnd); solve_submseteq
            | eapply (fresh_not_in _ _ _ _ Hp); [solve_submseteq | lia] ]
  end.

Ltac fmap_norm :=
  rewrite ?fmap_app, ?fmap_cons, ?fmap_nil; cbn [rq_promise ar_promise];
  repeat match goal with
  | H : context [fmap _ (_ ++ _)] |- _ =>
      rewrite ?fmap_app, ?fmap_cons, ?fmap_nil in H; cbn [rq_promise ar_promise] in H
  end.

Ltac solve_pend2 Hnd Hp :=
  len_norm;
  lazymatch goal with
  | |- pend (?h ++ _) ?p =>
      first [ apply pend_snoc_last;
              len_norm; simpl; lia
            | apply pend_app; solve_pend2 Hnd Hp ]
  | |- pend (<[?q:=_]> ?h) ?p => apply pend_insert; [solve_ne Hnd Hp | solve_pend2 Hnd Hp]
  | |- pend (reject_all _ _ _) _ =>
      apply pend_reject_all; [solve_notin Hnd Hp | solve_pend2 Hnd Hp]
  | |- pend _ _ => eapply (pend_of _ _ _ Hp); solve_submseteq
  end.

Ltac absurd_settle2 :=
  match goal with
  | H : ~ pend _ _ |- _ => exfalso; apply H; with_own solve_pend2
  end.

Ltac solve_settled2 :=
  lazymatch goal with
  | |- (_ ++ _) !! _ = Some _ =>
      first [ apply lookup_snoc_at;
              len_norm; simpl; lia
            | apply lookup_app_l_Some; solve_settled2 ]
  | |- <[?q:=_]> _ !! ?q = Some _ =>
      apply list_lookup_insert_eq; eapply pend_lt;
      first [eassumption | with_own solve_pend2]
  | |- <[_:=_]> _ !! _ = Some _ =>
      eapply settled_insert;
      [solve_settled2 | discriminate | first [eassumption | with_own solve_pend2]]
  | |- reject_all _ (_ ++ [?p]) _ !! ?p = Some _ =>
      apply lookup_reject_all_in;
      [ apply elem_of_app; right; apply list_elem_of_here | len_norm; simpl; lia ]
  | |- reject_all _ _ _ !! _ = Some _ =>
      rewrite lookup_reject_all_notin;
      [solve_settled2 | with_own solve_notin]
  | |- _ => eassumption
  end.

(** Every write request of the list was rejected. *)
Ltac solve_all_rejected :=
  repeat first
    [ apply Forall_settled_app
    | eapply Forall_settled_insert;
      [discriminate | first [eassumption | with_own solve_pend2] |] ];
  first [ apply Forall_nil_2
        | apply rejected_all_ids;
          [ intros ? ?;
            first [ apply list_elem_of_fmap_2; assumption
                  | apply elem_of_app; left; apply list_elem_of_fmap_2; assumption ]
          | with_own solve_Forall_pend ] ].

Ltac solve_all_pending :=
  lazymatch goal with
  | |- Forall (fun r => ?h !! rq_promise r = Some Pending) ?l =>
      apply (proj1 (Forall_fmap rq_promise (pend h) l)); with_own solve_Forall_pend
  end.

Ltac op_finish2 :=
  norm_own; fmap_norm; try absurd_settle2;
  repeat match goal with |- _ /\ _ => split end; try reflexivity;
  try (intros; hyp_simpl; simpl; repeat match goal with |- _ /\ _ => split end);
  try reflexivity;
  try solve [apply lookup_fresh_None;
             len_norm; simpl; lia];
  try solve [lazymatch goal with |- ?h !! ?p = Some Pending => change (pend h p) end;
             with_own solve_pend2];
  try solve [solve_settled2];
  try solve [solve_all_rejected];
  try solve [solve_all_pending];
  try solve [rewrite ?alter_snoc, ?list_lookup_alter_eq;
             repeat match goal with
             | Hx : ?l !! ?x = Some _ |- context [?l !! ?x] => rewrite Hx
             end;
             simpl; eexists; split; [reflexivity |]; simpl;
             repeat match goal with |- _ /\ _ => split end;
             first [reflexivity | solve_settled2]].

(** Symbolic execution in which the loop over the write requests is run. *)
Ltac wp_rstep :=
  exec_simpl; cbn [app length Nat.eqb PeekQueueValue head tail rq_promise ar_promise];
  lazymatch goal with
  | |- wp (for_each _ _) _ _ _ =>
      apply wp_for_each_reject;
      [ exec_simpl; norm_own; list_norm; with_own solve_Forall_pend
      | norm_own; list_norm; with_own solve_NoDup
      | ]
  | |- wp ?m _ _ _ => wp_phead m
  | |- forall _, _ => intros ?
  end.
Ltac wp_rgo := repeat wp_rstep.

Section AbortIdle.
Context {num : Type} {JSN : JSNumber num}.
Abbreviation World := (World (num:=num)).
Local Open Scope string_scope.

(** What a promise chained on a sink promise becomes when that one settles. *)
Definition outcome_state (o : Outcome) : PromiseState :=
  match o with fulfils => Fulfilled VUndefined | rejects r => Rejected r end.

Lemma abort_task_settles (w : World) (j p : nat) (o : Outcome) :
  tasks w !! j = Some (TAbort p None) -> promises w !! p = Some Pending ->
  promises (step (sink_settles j o) w) !! p = Some (outcome_state o).
Proof.
  intros Hj Hp. unfold step. apply (wp_run _ (fun w' => promises w' !! p = _)).
  unfold run, settle_task, sinkAbort_settled.
  destruct_world w.
  wp_xgo.
  all: try (exfalso; match goal with H : ~ pend _ _ |- _ => apply H; exact Hp end).
  all: destruct o; simpl; apply list_lookup_insert_eq; eapply lookup_lt_Some; exact Hp.
Qed.

(** X13.  Abort of an idle stream.  On a writable stream with nothing in
    flight, no close requested and no abort pending, [WritableStreamAbort]
    (what [stream.abort] and [writer.abort] call) errors the stream with a
    new [TypeError] "Aborted", empties the queue, rejects the queued writes
    and the writer's closed promise with that error, rejects the ready
    promise with the [TypeError] "Aborted" it created first, and calls
    [sink.abort(reason)].  The promise it returns is new and pending, and
    it settles as the promise of [sink.abort] does: fulfilled with
    [undefined], or rejected with the same reason. *)
Theorem abort_idle_stream (w : World) (reason : Value) :
  reachable w ->
  _state (stream w) = writable ->
  _pendingAbortRequest (stream w) = None ->
  _closeRequest (stream w) = None ->
  _inflightWriteRequest (stream w) = None -> _inflightCloseRequest (stream w) = None ->
  let storedError := VError (S (nextError w)) TypeError "Aborted" in
  exists w' p,
    WritableStreamAbort reason w = (w', Normal p)
    /\ promises w !! p = None
    /\ promises w' !! p = Some Pending
    /\ _state (stream w') = errored
    /\ _storedError (stream w') = storedError
    /\ _queue (controller w') = []
    /\ sinkCalls w' = (sinkCalls w ++ [SinkAbort reason])%list
    /\ tasks w' = (tasks w ++ [TAbort p None])%list
    /\ _writeRequests (stream w') = []
    /\ Forall (fun r => promises w' !! rq_promise r = Some (Rejected storedError))
         (_writeRequests (stream w))
    /\ (forall x wr, _writer (stream w) = Some x -> writers w !! x = Some wr ->
        promises w' !! _closedPromise wr = Some (Rejected storedError)
        /\ exists wr',
             writers w' !! x = Some wr'
             /\ promises w' !! _readyPromise wr'
                = Some (Rejected (VError (nextError w) TypeError "Aborted")))
    /\ (forall o, promises (step (sink_settles (length (tasks w)) o) w') !! p
                  = Some (outcome_state o)).
Proof.
  intros Hr Hst Hpar Hcr Hifw Hifc storedError. subst storedError.
  pose proof (reachable_INV w Hr Hst) as [HA HW HW2 HBP].
  apply wp_returns.
  destruct_world w. subst.
  unfold WritableStreamAbort.
  wp_rgo.
  all: op_finish2.
  all: apply abort_task_settles; exec_simpl; [apply lookup_snoc_last | solve_settled2].
Qed.
End AbortIdle.

Section ControllerError.
Context {num : Type} {JSN : JSNumber num}.
Abbreviation World := (World (num:=num)).

(** X15.  [controller.error(e)] on a writable stream with nothing in flight,
    no close requested and no abort pending returns, errors the stream with
    [e], empties the queue and rejects the queued writes, the writer's
    closed promise and its ready promise with [e].  The sink is not called. *)
Theorem controller_error_idle_stream (w : World) (e : Value) :
  reachable w ->
  _state (stream w) = writable ->
  _pendingAbortRequest (stream w) = None ->
  _closeRequest (stream w) = None ->
  _inflightWriteRequest (stream w) = None -> _inflightCloseRequest (stream w) = None ->
  exists w',
    run (controller_error e) w = (w', Normal RUnit)
    /\ _state (stream w') = errored
    /\ _storedError (stream w') = e
    /\ _queue (controller w') = []
    /\ sinkCalls w' = sinkCalls w /\ tasks w' = tasks w
    /\ _writeRequests (stream w') = []
    /\ Forall (fun r => promises w' !! rq_promise r = Some (Rejected e))
         (_writeRequests (stream w))
    /\ (forall x wr, _writer (stream w) = Some x -> writers w !! x = Some wr ->
        promises w' !! _closedPromise wr = Some (Rejected e)
        /\ exists wr',
             writers w' !! x = Some wr'
             /\ promises w' !! _readyPromise wr' = Some (Rejected e)).
Proof.
  intros Hr Hst Hpar Hcr Hifw Hifc.
  pose proof (reachable_INV w Hr Hst) as [HA HW HW2 HBP].
  apply wp_returns_value.
  destruct_world w. subst.
  unfold run.
  wp_rgo.
  all: op_finish2.
Qed.

(** X16.  [controller.error(e)] while a write is in flight, on a writable
    stream with no abort pending and no close requested (neither queued nor
    in flight), returns, errors the stream and empties the queue, but leaves
    the promises of the write in flight and of the queued writes pending.
    When the promise of [sink.write] then fulfils, the promise of the write
    in flight is fulfilled with [undefined], and the queued writes and the
    writer's closed promise are rejected with [e]. *)
Theorem controller_error_during_write (w : World) (e : Value) (i : nat) (writeRequest : Request) :
  reachable w ->
  _state (stream w) = writable ->
  _pendingAbortRequest (stream w) = None ->
  _closeRequest (stream w) = None -> _inflightCloseRequest (stream w) = None ->
  _inflightWriteRequest (stream w) = Some writeRequest ->
  tasks w !! i = Some TWrite ->
  exists w1,
    run (controller_error e) w = (w1, Normal RUnit)
    /\ _state (stream w1) = errored
    /\ _storedError (stream w1) = e
    /\ _queue (controller w1) = []
    /\ _writeRequests (stream w1) = _writeRequests (stream w)
    /\ _inflightWriteRequest (stream w1) = Some writeRequest
    /\ promises w1 !! rq_promise writeRequest = Some Pending
    /\ Forall (fun r => promises w1 !! rq_promise r = Some Pending) (_writeRequests (stream w))
    /\ exists w2,
         run (sink_settles i fulfils) w1 = (w2, Normal RUnit)
         /\ _state (stream w2) = errored
         /\ _storedError (stream w2) = e
         /\ promises w2 !! rq_promise writeRequest = Some (Fulfilled VUndefined)
         /\ _writeRequests (stream w2) = []
         /\ _inflightWriteRequest (stream w2) = None
         /\ Forall (fun r => promises w2 !! rq_promise r = Some (Rejected e))
              (_writeRequests (stream w))
         /\ (forall x wr, _writer (stream w) = Some x -> writers w !! x = Some wr ->
             promises w2 !! _closedPromise wr = Some (Rejected e)).
Proof.
  intros Hr Hst Hpar Hcr Hifc Hifw Hi.
  pose proof (reachable_INV w Hr Hst) as [HA HW HW2 HBP].
  apply wp_returns_value.
  destruct_world w. subst.
  unfold run.
  wp_rgo.
  all: op_finish2.
  all: apply wp_returns_value; unfold settle_task; wp_rgo.
  all: op_finish2.
Qed.
End ControllerError.

Section WriteOutcomes.
Context {num : Type} {JSN : JSNumber num}.
Abbreviation World := (World (num:=num)).

(** X8.  When the promise of [sink.write] rejects on a writable stream on
    which no close was requested, the continuation returns, the stream is
    errored with that reason, and the promise of the write in flight, those
    of all queued writes, that of a pending abort request and the writer's
    closed promise are rejected with it.  The queue is emptied and the sink
    is not called. *)
Theorem write_rejects_errors (w : World) (i : nat) (writeRequest : Request) (reason : Value) :
  reachable w ->
  tasks w !! i = Some TWrite ->
  _state (stream w) = writable ->
  _inflightWriteRequest (stream w) = Some writeRequest ->
  _closeRequest (stream w) = None -> _inflightCloseRequest (stream w) = None ->
  exists w',
    run (sink_settles i (rejects reason)) w = (w', Normal RUnit)
    /\ promises w' !! rq_promise writeRequest = Some (Rejected reason)
    /\ _state (stream w') = errored
    /\ _storedError (stream w') = reason
    /\ _queue (controller w') = []
    /\ _inflightWriteRequest (stream w') = None
    /\ _writeRequests (stream w') = []
    /\ Forall (fun r => promises w' !! rq_promise r = Some (Rejected reason))
         (_writeRequests (stream w))
    /\ (forall abortRequest, _pendingAbortRequest (stream w) = Some abortRequest ->
        promises w' !! ar_promise abortRequest = Some (Rejected reason))
    /\ _pendingAbortRequest (stream w') = None
    /\ sinkCalls w' = sinkCalls w
    /\ (forall x wr, _writer (stream w) = Some x -> writers w !! x = Some wr ->
        promises w' !! _closedPromise wr = Some (Rejected reason)).
Proof.
  intros Hr Hi Hst Hifw Hcr Hifc.
  pose proof (reachable_INV w Hr Hst) as [HA HW HW2 HBP].
  apply wp_returns_value.
  destruct_world w. subst.
  unfold run, settle_task.
  wp_rgo.
  all: op_finish2.
Qed.
End WriteOutcomes.

Section AbortDuringWrite.
Context {num : Type} {JSN : JSNumber num}.
Abbreviation World := (World (num:=num)).
Local Open Scope string_scope.

Lemma abort_task_forwards (w : World) (j p q : nat) (o : Outcome) :
  tasks w !! j = Some (TAbort p (Some q)) ->
  promises w !! p = Some Pending -> promises w !! q = Some Pending -> p <> q ->
  promises (step (sink_settles j o) w) !! q = Some (outcome_state o).
Proof.
  intros Hj Hp Hq Hne. unfold step. apply (wp_run _ (fun w' => promises w' !! q = _)).
  unfold run, settle_task, sinkAbort_settled.
  destruct_world w.
  wp_xgo.
  all: try (exfalso;
            match goal with
            | H : ~ pend _ _ |- _ =>
                apply H; first [exact Hp | exact Hq | apply pend_insert; [congruence | exact Hq]]
            end).
  all: destruct o; simpl; apply list_lookup_insert_eq; rewrite length_insert;
       eapply lookup_lt_Some; exact Hq.
Qed.

(** X14.  Abort while a write is in flight, on a writable stream with no
    abort pending and no close requested (neither queued nor in flight).
    The abort is recorded and its promise stays pending; the stream stays
    writable and the sink is not called.  When the promise of [sink.write]
    then fulfils, the promise of that write is fulfilled with [undefined],
    the stream is errored with a new [TypeError] "Aborted", the queued
    writes are rejected with it, the queue is emptied and only now
    [sink.abort(reason)] is called; the promise of the abort settles as the
    promise of [sink.abort] does. *)
Theorem abort_during_write (w : World) (reason : Value) (i : nat) (writeRequest : Request) :
  reachable w ->
  _state (stream w) = writable ->
  _pendingAbortRequest (stream w) = None ->
  _closeRequest (stream w) = None -> _inflightCloseRequest (stream w) = None ->
  _inflightWriteRequest (stream w) = Some writeRequest ->
  tasks w !! i = Some TWrite ->
  let storedError := VError (S (nextError w)) TypeError "Aborted" in
  exists w1 p,
    WritableStreamAbort reason w = (w1, Normal p)
    /\ promises w !! p = None
    /\ promises w1 !! p = Some Pending
    /\ _state (stream w1) = writable
    /\ _pendingAbortRequest (stream w1) = Some {| ar_promise := p; _reason := reason |}
    /\ sinkCalls w1 = sinkCalls w
    /\ controller w1 = controller w
    /\ exists w2,
         run (sink_settles i fulfils) w1 = (w2, Normal RUnit)
         /\ promises w2 !! rq_promise writeRequest = Some (Fulfilled VUndefined)
         /\ _state (stream w2) = errored
         /\ _storedError (stream w2) = storedError
         /\ _queue (controller w2) = []
         /\ sinkCalls w2 = (sinkCalls w ++ [SinkAbort reason])%list
         /\ Forall (fun r => promises w2 !! rq_promise r = Some (Rejected storedError))
              (_writeRequests (stream w))
         /\ promises w2 !! p = Some Pending
         /\ exists j, j < length (tasks w2)
              /\ forall o, promises (step (sink_settles j o) w2) !! p
                           = Some (outcome_state o).
Proof.
  intros Hr Hst Hpar Hcr Hifc Hifw Hi storedError. subst storedError.
  pose proof (reachable_INV w Hr Hst) as [HA HW HW2 HBP].
  apply wp_returns.
  destruct_world w. subst.
  unfold WritableStreamAbort.
  wp_rgo.
  all: op_finish2.
  all: apply wp_returns_value; unfold run, settle_task; wp_rgo.
  all: op_finish2.
  all: lazymatch goal with
       | |- exists j, j < length (?l ++ [_]) /\ _ => exists (length l)
       end; split; [rewrite !length_app; cbn [length]; lia |].
  all: intros o; eapply abort_task_forwards; exec_simpl;
       [ apply lookup_snoc_last
       | apply lookup_snoc_last
       | lazymatch goal with |- ?h !! ?p = Some Pending => change (pend h p) end;
         with_own solve_pend2
       | len_norm; simpl; lia ].
Qed.
End AbortDuringWrite.

Section WriteRoundTrip.
Context {num : Type} {JSN : JSNumber num}.
Abbreviation World := (World (num:=num)).

(** [strategySize(chunk)], or 1 without [size] function. *)
Definition chunk_size (c : WritableStreamDefaultController) (chunk : Value) : Completion num :=
  match _strategySize c with
  | Some strategySize => strategySize chunk
  | None => Normal none
  end.

Lemma remove_last {A} (l : list A) (a : A) :
  take (length l) (l ++ [a]) ++ drop (S (length l)) (l ++ [a]) = l.
Proof.
  rewrite take_app_length. rewrite drop_ge by (rewrite length_app; simpl; lia).
  apply app_nil_r.
Qed.

(** X6.  Write, then fulfilment.  On a writable, started stream with nothing
    queued and nothing in flight, [writer.write(chunk)] with a valid size
    returns a new pending promise and passes the chunk to [sink.write] at
    once; the record stays in the queue and the request is in flight.  When
    the promise of [sink.write] fulfils, the promise of the write is
    fulfilled with [undefined] and the stream and the controller are again
    exactly as before the write. *)
Theorem write_on_idle_stream (w : World) (x : nat) (wr : Writer) (chunk : Value) (size : num) :
  reachable w ->
  _state (stream w) = writable ->
  _writer (stream w) = Some x -> writers w !! x = Some wr ->
  _pendingAbortRequest (stream w) = None ->
  _closeRequest (stream w) = None -> _inflightCloseRequest (stream w) = None ->
  _inflightWriteRequest (stream w) = None ->
  _writeRequests (stream w) = [] -> _queue (controller w) = [] ->
  _started (controller w) = true ->
  chunk_size (controller w) chunk = Normal size -> nfinite_nonneg size = true ->
  exists w1 p,
    WritableStreamDefaultWriter_write x chunk w = (w1, Normal p)
    /\ promises w !! p = None
    /\ promises w1 !! p = Some Pending
    /\ _state (stream w1) = writable
    /\ _queue (controller w1) = [(QChunk chunk, size)]
    /\ _inflightWriteRequest (stream w1) = Some {| rq_promise := p |}
    /\ _writeRequests (stream w1) = []
    /\ sinkCalls w1 = (sinkCalls w ++ [SinkWrite chunk])%list
    /\ tasks w1 = (tasks w ++ [TWrite])%list
    /\ exists w2,
         run (sink_settles (length (tasks w)) fulfils) w1 = (w2, Normal RUnit)
         /\ promises w2 !! p = Some (Fulfilled VUndefined)
         /\ stream w2 = stream w
         /\ controller w2 = controller w
         /\ tasks w2 = tasks w
         /\ sinkCalls w2 = sinkCalls w1.
Proof.
  intros Hr Hst Hw Hwr Hpar Hcr Hifc Hifw Hwrq Hq Hstarted Hsz Hvalid.
  pose proof (reachable_INV w Hr Hst) as [HA HW HW2 HBP].
  apply wp_returns.
  destruct_world w. unfold chunk_size in Hsz; simpl in Hsz. subst.
  unfold WritableStreamDefaultWriter_write.
  wp_rgo.
  all: try congruence.
  all: try (injection Hsz as <-).
  all: op_finish2.
  all: apply wp_returns_value; unfold settle_task;
       repeat (rewrite ?lookup_snoc_last; wp_rstep).
  all: op_finish2.
  all: try apply remove_last.
Qed.

(** X9.  A [size] function that throws errors the stream.  On a writable
    stream with nothing in flight, no close requested and no pending abort,
    [writer.write(chunk)] for which [size(chunk)] throws [e] returns a new
    promise that is already rejected with [e]; the stream is errored with
    [e], the queue is emptied, the queued writes and the closed promise are
    rejected with [e], and the sink is not called. *)
Theorem write_with_failing_size (w : World) (x : nat) (wr : Writer) (chunk e : Value) :
  reachable w ->
  _state (stream w) = writable ->
  _writer (stream w) = Some x -> writers w !! x = Some wr ->
  _pendingAbortRequest (stream w) = None ->
  _closeRequest (stream w) = None -> _inflightCloseRequest (stream w) = None ->
  _inflightWriteRequest (stream w) = None ->
  chunk_size (controller w) chunk = Throw e ->
  exists w' p,
    WritableStreamDefaultWriter_write x chunk w = (w', Normal p)
    /\ promises w !! p = None
    /\ promises w' !! p = Some (Rejected e)
    /\ _state (stream w') = errored
    /\ _storedError (stream w') = e
    /\ _queue (controller w') = []
    /\ _writeRequests (stream w') = []
    /\ sinkCalls w' = sinkCalls w
    /\ Forall (fun r => promises w' !! rq_promise r = Some (Rejected e))
         (_writeRequests (stream w))
    /\ promises w' !! _closedPromise wr = Some (Rejected e).
Proof.
  intros Hr Hst Hw Hwr Hpar Hcr Hifc Hifw Hsz.
  pose proof (reachable_INV w Hr Hst) as [HA HW HW2 HBP].
  apply wp_returns.
  destruct_world w. unfold chunk_size in Hsz; simpl in Hsz. subst.
  unfold WritableStreamDefaultWriter_write.
  wp_rgo.
  all: try congruence.
  all: try (injection Hsz as <-).
  all: op_finish2.
Qed.

(** X10.  Close, then fulfilment.  On a writable, started stream with nothing
    queued and nothing in flight, [writer.close()] returns a new pending
    promise, calls [sink.close] at once with the request in flight, and
    leaves the ready promise fulfilled.  When the promise of [sink.close]
    fulfils, the stream is closed and the promise of the close and the
    writer's closed promise are fulfilled with [undefined]. *)
Theorem close_on_idle_stream (w : World) (x : nat) (wr : Writer) :
  reachable w ->
  _state (stream w) = writable ->
  _writer (stream w) = Some x -> writers w !! x = Some wr ->
  _pendingAbortRequest (stream w) = None ->
  _closeRequest (stream w) = None -> _inflightCloseRequest (stream w) = None ->
  _inflightWriteRequest (stream w) = None ->
  _queue (controller w) = [] ->
  _started (controller w) = true ->
  nfinite_nonneg nzero = true ->
  exists w1 p,
    WritableStreamDefaultWriter_close x w = (w1, Normal p)
    /\ promises w !! p = None
    /\ promises w1 !! p = Some Pending
    /\ _state (stream w1) = writable
    /\ _closeRequest (stream w1) = None
    /\ _inflightCloseRequest (stream w1) = Some {| rq_promise := p |}
    /\ _queue (controller w1) = []
    /\ sinkCalls w1 = (sinkCalls w ++ [SinkClose])%list
    /\ tasks w1 = (tasks w ++ [TClose])%list
    /\ (exists wr1, writers w1 !! x = Some wr1
          /\ promises w1 !! _readyPromise wr1 = Some (Fulfilled VUndefined))
    /\ exists w2,
         run (sink_settles (length (tasks w)) fulfils) w1 = (w2, Normal RUnit)
         /\ _state (stream w2) = closed
         /\ promises w2 !! p = Some (Fulfilled VUndefined)
         /\ promises w2 !! _closedPromise wr = Some (Fulfilled VUndefined)
         /\ sinkCalls w2 = sinkCalls w1.
Proof.
  intros Hr Hst Hw Hwr Hpar Hcr Hifc Hifw Hq Hstarted Hzero.
  pose proof (reachable_INV w Hr Hst) as [HA HW HW2 HBP].
  apply wp_returns.
  destruct_world w. subst.
  unfold WritableStreamDefaultWriter_close.
  wp_rgo.
  all: try congruence.
  all: op_finish2.
  all: apply wp_returns_value; unfold settle_task;
       repeat (rewrite ?lookup_snoc_last; wp_rstep).
  all: op_finish2.
Qed.
End WriteRoundTrip.

(** ** The invariants hold in every reachable world *)

Section Reachable.
Context {num : Type} {JSN : JSNumber num}.
Abbreviation World := (World (num:=num)).

(** What [new WritableStream(sink, strategy)] leaves when it returns. *)
Lemma constructor_result underlyingSink size highWaterMark (w : World) :
  WritableStream_constructor underlyingSink size highWaterMark = (w, Normal tt) ->
  _state (stream w) = writable /\ _writer (stream w) = None
  /\ _writeRequests (stream w) = [] /\ _inflightWriteRequest (stream w) = None
  /\ _closeRequest (stream w) = None /\ _inflightCloseRequest (stream w) = None
  /\ _pendingAbortRequest (stream w) = None
  /\ _queue (controller w) = [] /\ _started (controller w) = false
  /\ writers w = [] /\ promises w = []
  /\ tasks w = [TStart] /\ sinkCalls w = [SinkStart].
Proof.
  unfold WritableStream_constructor.
  match goal with |- ?m ?w0 = _ -> _ =>
    intros Hrun;
    refine (wp_normal m (fun _ w' => _) (fun _ => True) w0 w tt _ Hrun); clear Hrun
  end.
  unfold blank_world.
  destruct (sink_type underlyingSink);
    unfold WritableStreamDefaultController_constructor, ValidateAndNormalizeQueuingStrategy,
      WritableStreamDefaultControllerStart, WritableStreamUpdateBackpressure;
    wp_go; world_simpl; auto.
  all: repeat split; reflexivity.
Qed.

Lemma INV_closed_promise_held (w : World) : INV w -> closed_promise_held w.
Proof.
  intros HI Hst x Hx. destruct (HI Hst) as [_ HW _ _].
  unfold attached_ok in HW. rewrite Hx in HW.
  destruct HW as (wr & Hwr & (_ & _ & _ & Hres & Hrej) & _).
  exists wr. split; [exact Hwr |]. rewrite Hres, Hrej. split; discriminate.
Qed.

Lemma reachable_sink_protocol (w : World) : reachable w -> sink_protocol w.
Proof.
  induction 1 as [sink size hwm w Hnew | l w Hw IH Hen].
  - apply constructor_result in Hnew
      as (Hst & _ & _ & Hifw & _ & Hifc & _ & _ & Hstarted & _ & _ & Hts & Hsc).
    split; rewrite ?Hts, ?Hsc; simpl; auto; intros; congruence.
  - apply sink_protocol_step; auto.
    + now apply reachable_no_abort_when_closed.
    + now apply INV_closed_promise_held, reachable_INV.
Qed.

Lemma reachable_lock_consistent (w : World) : reachable w -> lock_consistent w.
Proof.
  induction 1 as [sink size hwm w Hnew | l w Hw IH Hen].
  - apply constructor_result in Hnew
      as (_ & Hwr & _ & _ & _ & _ & _ & _ & _ & Hws & _).
    split.
    + intros y wr Hy. rewrite Hws, lookup_nil in Hy. discriminate.
    + intros x Hx. congruence.
  - now apply lock_consistent_step.
Qed.

Lemma reachable_queue_matches_requests (w : World) :
  reachable w -> queue_matches_requests w.
Proof.
  induction 1 as [sink size hwm w Hnew | l w Hw IH Hen].
  - apply constructor_result in Hnew
      as (_ & _ & Hwrq & Hifw & Hcr & _ & _ & Hq & _).
    intros _. split; rewrite ?Hq, ?Hwrq, ?Hifw, ?Hcr; simpl; auto. discriminate.
  - now apply queue_matches_requests_step.
Qed.
End Reachable.

(** ** The sink write fulfils *)

Section WriteFulfils.
Context {num : Type} {JSN : JSNumber num}.
Abbreviation World := (World (num:=num)).


End WriteFulfils.

(** ** Invariants of reachable streams *)

Section Invariants.
Context {num : Type} {JSN : JSNumber num}.
Abbreviation World := (World (num:=num)).

Lemma count_of_zero {A} (f : A -> bool) (l : list A) a :
  count_of f l = 0 -> In a l -> f a = false.
Proof.
  induction l as [|b l IH]; simpl; intros H Hin; [contradiction |].
  destruct Hin as [-> | Hin].
  - destruct (f a); [discriminate | reflexivity].
  - apply IH; [| exact Hin]. destruct (f b); [discriminate | exact H].
Qed.

Lemma count_of_pos {A} (f : A -> bool) (l : list A) a :
  In a l -> f a = true -> 0 < count_of f l.
Proof.
  induction l as [|b l IH]; simpl; intros Hin Hf; [contradiction |].
  destruct Hin as [-> | Hin].
  - rewrite Hf. lia.
  - specialize (IH Hin Hf). lia.
Qed.

(** X1.  The lock is exclusive.  In every reachable world a writer object
    refers to the stream ([_ownerWritableStream]) only if it is the stream's
    [_writer], the stream's [_writer] does refer to the stream, and so at
    most one writer object refers to the stream at any time. *)
Theorem exclusive_lock (w : World) :
  reachable w ->
  (forall y wr, writers w !! y = Some wr -> _ownerWritableStream wr = true ->
     _writer (stream w) = Some y)
  /\ (forall x, _writer (stream w) = Some x ->
      exists wr, writers w !! x = Some wr /\ _ownerWritableStream wr = true)
  /\ (forall y z wr wr', writers w !! y = Some wr -> writers w !! z = Some wr' ->
      _ownerWritableStream wr = true -> _ownerWritableStream wr' = true -> y = z).
Proof.
  intros Hr. destruct (reachable_lock_consistent w Hr) as [Ha Hb].
  split; [exact Ha |]. split; [exact Hb |].
  intros y z wr wr' Hy Hz Hoy Hoz.
  pose proof (Ha _ _ Hy Hoy) as E1. pose proof (Ha _ _ Hz Hoz) as E2. congruence.
Qed.

(** X2.  [sink.start] is the first call made on the sink and it is made
    exactly once.  While the promise of [start] is pending, [_started] is
    false; and as long as [_started] is false (the promise is pending or was
    rejected), neither [sink.write] nor [sink.close] has been called. *)
Theorem sink_start_comes_first (w : World) :
  reachable w ->
  head (sinkCalls w) = Some SinkStart
  /\ count_of is_start_call (sinkCalls w) = 1
  /\ (In TStart (tasks w) -> _started (controller w) = false)
  /\ (_started (controller w) = false ->
      forall c, In c (sinkCalls w) -> is_write_call c = false /\ is_close_call c = false).
Proof.
  intros Hr. destruct (reachable_sink_protocol w Hr) as [H1 H2 H3 _ _ _ _ _ _ _ Hb _ _].
  split; [exact H1 |]. split; [exact H2 |]. split.
  - intros Hin. destruct (_started (controller w)); [| reflexivity].
    specialize (Hb eq_refl). pose proof (count_of_pos is_start_task _ _ Hin eq_refl). lia.
  - intros Hs c Hc. destruct (H3 Hs) as [Hw Hcl].
    split; eapply count_of_zero; eauto.
Qed.

(** X3.  At most one promise of [sink.write] and at most one promise of
    [sink.close] are pending at any time; a pending [sink.write] has its
    request in [_inflightWriteRequest], a pending [sink.close] in
    [_inflightCloseRequest]. *)
Theorem sink_operations_do_not_overlap (w : World) :
  reachable w ->
  count_of is_write_task (tasks w) <= 1
  /\ count_of is_close_task (tasks w) <= 1
  /\ (In TWrite (tasks w) -> _inflightWriteRequest (stream w) <> None)
  /\ (In TClose (tasks w) -> _inflightCloseRequest (stream w) <> None).
Proof.
  intros Hr. destruct (reachable_sink_protocol w Hr) as [_ _ _ H4 H5 H6 H7 _ _ _ _ _ _].
  split; [exact H4 |]. split; [exact H6 |]. split.
  - intros Hin Hn. specialize (H5 Hn).
    pose proof (count_of_pos is_write_task _ _ Hin eq_refl). lia.
  - intros Hin Hn. specialize (H7 Hn).
    pose proof (count_of_pos is_close_task _ _ Hin eq_refl). lia.
Qed.

(** X4.  Over the life of a stream [sink.close] is called at most once and
    [sink.abort] at most once.  While the stream is writable [sink.abort]
    has not been called, and [sink.close] has only been called if a close
    request is in flight. *)
Theorem sink_close_and_abort_at_most_once (w : World) :
  reachable w ->
  count_of is_close_call (sinkCalls w) <= 1
  /\ count_of is_abort_call (sinkCalls w) <= 1
  /\ (_state (stream w) = writable ->
      (forall reason, ~ In (SinkAbort reason) (sinkCalls w))
      /\ (_inflightCloseRequest (stream w) = None -> ~ In SinkClose (sinkCalls w))).
Proof.
  intros Hr. destruct (reachable_sink_protocol w Hr) as [_ _ _ _ _ _ _ H8 H9 _ _ Hd He].
  split; [exact Hd |]. split; [exact H8 |]. intros Hst. split.
  - intros reason Hin. specialize (H9 Hst).
    pose proof (count_of_pos is_abort_call _ _ Hin eq_refl). lia.
  - intros Hifc Hin. specialize (He Hst Hifc).
    pose proof (count_of_pos is_close_call _ _ Hin eq_refl). lia.
Qed.

Lemma close_last_lookup (q : list (WriteRecord * num)) b i sz :
  close_last q b = true -> q !! i = Some (QClose, sz) -> S i = length q /\ b = true.
Proof.
  revert i. induction q as [|[[|c] s] q IH]; intros [|i] H Hi; simpl in *; try discriminate.
  - destruct q; [| discriminate]. auto.
  - destruct q; [| discriminate]. rewrite lookup_nil in Hi. discriminate.
  - destruct (IH _ H Hi) as [E1 E2]. auto.
Qed.

(** X5.  While the stream is writable, the controller's queue holds exactly
    one chunk record for every write that is not finished (the requests in
    [_writeRequests] and the one in flight); the close marker can only be
    the last record, and only while the close request is queued; and a write
    is only in flight once [start] has fulfilled. *)
Theorem queue_matches_write_requests (w : World) :
  reachable w -> _state (stream w) = writable ->
  count_of is_chunk_record (_queue (controller w))
  = length (_writeRequests (stream w))
    + (if is_set (_inflightWriteRequest (stream w)) then 1 else 0)
  /\ (forall i size, _queue (controller w) !! i = Some (QClose, size) ->
      S i = length (_queue (controller w)) /\ _closeRequest (stream w) <> None)
  /\ (_inflightWriteRequest (stream w) <> None -> _started (controller w) = true).
Proof.
  intros Hr Hst. destruct (reachable_queue_matches_requests w Hr Hst) as [H1 H2 H3].
  split; [exact H1 |]. split.
  - intros i size Hi. destruct (close_last_lookup _ _ _ _ H2 Hi) as [E1 E2].
    split; [exact E1 |]. destruct (_closeRequest (stream w)); [discriminate | discriminate].
  - intros Hn. apply H3. destruct (_inflightWriteRequest (stream w)); [reflexivity | congruence].
Qed.
End Invariants.

(** ** Released writers *)

Section ReleasedWriter.
Context {num : Type} {JSN : JSNumber num}.
Abbreviation World := (World (num:=num)).
Local Open Scope string_scope.

(** X18.  On a reachable stream, a writer object other than the stream's
    current writer is released: its [write], [close] and [abort] return a
    new promise rejected with a [TypeError] that names the operation, its
    [desiredSize] throws that error and its [releaseLock] does nothing.
    None of them changes the stream, the controller, the writers, or what is
    asked of the sink. *)
Theorem detached_writer_is_inert (w : World) (x : nat) (wr : Writer) (chunk reason : Value) :
  reachable w ->
  writers w !! x = Some wr -> _writer (stream w) <> Some x ->
  let p := length (promises w) in
  let lockError name :=
    VError (nextError w) TypeError
      (String.append "Cannot " (String.append name " a stream using a released writer")) in
  let unchanged (w' : World) :=
    stream w' = stream w /\ controller w' = controller w /\ writers w' = writers w
    /\ tasks w' = tasks w /\ sinkCalls w' = sinkCalls w in
  (exists w', WritableStreamDefaultWriter_write x chunk w = (w', Normal p)
     /\ promises w' !! p = Some (Rejected (lockError "write to")) /\ unchanged w')
  /\ (exists w', WritableStreamDefaultWriter_close x w = (w', Normal p)
     /\ promises w' !! p = Some (Rejected (lockError "close")) /\ unchanged w')
  /\ (exists w', WritableStreamDefaultWriter_abort x reason w = (w', Normal p)
     /\ promises w' !! p = Some (Rejected (lockError "abort")) /\ unchanged w')
  /\ (exists w', WritableStreamDefaultWriter_desiredSize x w
                 = (w', Throw (lockError "desiredSize")) /\ unchanged w')
  /\ WritableStreamDefaultWriter_releaseLock x w = (w, Normal tt).
Proof.
  intros Hr Hx Hw p lockError unchanged.
  assert (Ho : _ownerWritableStream wr = false).
  { destruct (_ownerWritableStream wr) eqn:E; [| reflexivity].
    destruct (reachable_lock_consistent w Hr) as [Ha _]. now specialize (Ha _ _ Hx E). }
  subst p lockError unchanged. destruct_world w.
  unfold WritableStreamDefaultWriter_write, WritableStreamDefaultWriter_close,
    WritableStreamDefaultWriter_abort, WritableStreamDefaultWriter_desiredSize,
    WritableStreamDefaultWriter_releaseLock, the_writer, mbind, M_bind; cbn.
  rewrite Hx, Ho. cbn.
  repeat split; eexists; (split; [reflexivity |]); cbn;
    repeat split; try reflexivity; apply lookup_snoc_last.
Qed.
End ReleasedWriter.

(** ** The further properties on concrete streams *)

Module FurtherExamples.
Import Scenario.
Local Open Scope string_scope.

(** [start] has settled and a writer holds the lock; nothing is queued. *)
Definition idle : World (num := Z) :=
  steps [sink_settles 0 fulfils; stream_getWriter] (new_stream 1).

(** ... [writer.write(7)] was called: [sink.write(7)] is pending. *)
Definition writing : World (num := Z) := step (writer_write 0 (VUser 7)) idle.

(** ... and [writer.write(8)]: the second chunk waits in the queue. *)
Definition writing_twice : World (num := Z) := step (writer_write 0 (VUser 8)) writing.

(** [writer.close()] on the idle stream: [sink.close()] is pending. *)
Definition closing_idle : World (num := Z) := step (writer_close 0) idle.

(** The writer of the idle stream has released its lock. *)
Definition released : World (num := Z) := step (writer_releaseLock 0) idle.

(** A stream whose [size] function throws, with a writer. *)
Definition throwing_size : World (num := Z) :=
  steps [sink_settles 0 fulfils; stream_getWriter]
    (fst (WritableStream_constructor sink (Some (fun _ => Throw (VUser 3))) (Some 1%Z))).

Definition idle_writer : Writer :=
  {| _ownerWritableStream := true;
     _readyPromise := 0; _readyPromise_resolve := None; _readyPromise_reject := None;
     _closedPromise := 1; _closedPromise_resolve := Some 1; _closedPromise_reject := Some 1 |}.

Lemma idle_reachable : reachable idle.
Proof.
  apply reachable_steps; [apply new_stream_reachable; lia | vm_compute; reflexivity].
Qed.

Lemma writing_reachable : reachable writing.
Proof. apply reachable_step; [exact idle_reachable | vm_compute; reflexivity]. Qed.

Lemma writing_twice_reachable : reachable writing_twice.
Proof. apply reachable_step; [exact writing_reachable | vm_compute; reflexivity]. Qed.

Lemma closing_idle_reachable : reachable closing_idle.
Proof. apply reachable_step; [exact idle_reachable | vm_compute; reflexivity]. Qed.

Lemma released_reachable : reachable released.
Proof. apply reachable_step; [exact idle_reachable | vm_compute; reflexivity]. Qed.

Lemma throwing_size_reachable : reachable throwing_size.
Proof.
  apply reachable_steps; [| vm_compute; reflexivity].
  apply (reachable_new sink (Some (fun _ => Throw (VUser 3))) (Some 1%Z)). reflexivity.
Qed.

Lemma exclusive_lock_witness : _writer (stream idle) = Some 0.
Proof.
  apply (proj1 (exclusive_lock idle idle_reachable) 0 idle_writer); vm_compute; reflexivity.
Defined.

Lemma sink_start_comes_first_witness :
  head (sinkCalls writing) = Some SinkStart
  /\ count_of is_start_call (sinkCalls writing) = 1.
Proof.
  destruct (sink_start_comes_first writing writing_reachable) as (H1 & H2 & _).
  split; assumption.
Defined.

Lemma sink_operations_do_not_overlap_witness :
  count_of is_write_task (tasks writing_twice) <= 1.
Proof.
  exact (proj1 (sink_operations_do_not_overlap writing_twice writing_twice_reachable)).
Defined.

Lemma sink_close_and_abort_at_most_once_witness :
  count_of is_close_call (sinkCalls closing_idle) <= 1.
Proof.
  exact (proj1 (sink_close_and_abort_at_most_once closing_idle closing_idle_reachable)).
Defined.

Lemma queue_matches_write_requests_witness :
  count_of is_chunk_record (_queue (controller writing_twice))
  = length (_writeRequests (stream writing_twice))
    + (if is_set (_inflightWriteRequest (stream writing_twice)) then 1 else 0).
Proof.
  apply (queue_matches_write_requests writing_twice writing_twice_reachable).
  vm_compute; reflexivity.
Defined.

Lemma write_on_idle_stream_witness :
  exists w1 p,
    WritableStreamDefaultWriter_write 0 (VUser 7) idle = (w1, Normal p)
    /\ sinkCalls w1 = [SinkStart; SinkWrite (VUser 7)]
    /\ exists w2,
         run (sink_settles 0 fulfils) w1 = (w2, Normal RUnit)
         /\ promises w2 !! p = Some (Fulfilled VUndefined)
         /\ stream w2 = stream idle.
Proof.
  destruct (write_on_idle_stream idle 0 idle_writer (VUser 7) 1%Z idle_reachable)
    as (w1 & p & Hrun & _ & _ & _ & _ & _ & _ & Hsc & _ & w2 & Hrun2 & Hp & Hs & _);
    try (vm_compute; reflexivity).
  exists w1, p. split; [exact Hrun |]. split; [exact Hsc |].
  exists w2. split; [exact Hrun2 |]. split; assumption.
Defined.


Lemma write_rejects_errors_witness :
  exists w',
    run (sink_settles 0 (rejects (VUser 9))) writing_twice = (w', Normal RUnit)
    /\ _state (stream w') = errored
    /\ promises w' !! 2 = Some (Rejected (VUser 9))
    /\ promises w' !! 4 = Some (Rejected (VUser 9)).
Proof.
  destruct (write_rejects_errors writing_twice 0 {| rq_promise := 2 |} (VUser 9)
              writing_twice_reachable)
    as (w' & Hrun & Hp & Hst & _ & _ & _ & _ & Hall & _);
    try (vm_compute; reflexivity).
  exists w'. split; [exact Hrun |]. split; [exact Hst |]. split; [exact Hp |].
  vm_compute in Hall. apply Forall_cons in Hall as [Hq _]. exact Hq.
Defined.

Lemma write_with_failing_size_witness :
  exists w' p,
    WritableStreamDefaultWriter_write 0 (VUser 7) throwing_size = (w', Normal p)
    /\ promises w' !! p = Some (Rejected (VUser 3))
    /\ _state (stream w') = errored.
Proof.
  destruct (write_with_failing_size throwing_size 0 idle_writer (VUser 7) (VUser 3)
              throwing_size_reachable)
    as (w' & p & Hrun & _ & Hp & Hst & _);
    try (vm_compute; reflexivity).
  exists w', p. split; [exact Hrun |]. split; assumption.
Defined.

Lemma close_on_idle_stream_witness :
  exists w1 p,
    WritableStreamDefaultWriter_close 0 idle = (w1, Normal p)
    /\ sinkCalls w1 = [SinkStart; SinkClose]
    /\ exists w2,
         run (sink_settles 0 fulfils) w1 = (w2, Normal RUnit)
         /\ _state (stream w2) = closed
         /\ promises w2 !! p = Some (Fulfilled VUndefined).
Proof.
  destruct (close_on_idle_stream idle 0 idle_writer idle_reachable)
    as (w1 & p & Hrun & _ & _ & _ & _ & _ & _ & Hsc & _ & _ & w2 & Hrun2 & Hst & Hp & _);
    try (vm_compute; reflexivity).
  exists w1, p. split; [exact Hrun |]. split; [exact Hsc |].
  exists w2. split; [exact Hrun2 |]. split; assumption.
Defined.

Lemma close_fulfils_closes_witness :
  exists w',
    run (sink_settles 0 fulfils) closing_idle = (w', Normal RUnit)
    /\ _state (stream w') = closed
    /\ promises w' !! 2 = Some (Fulfilled VUndefined).
Proof.
  destruct (close_fulfils_closes closing_idle 0 {| rq_promise := 2 |} closing_idle_reachable)
    as (w' & Hrun & _ & Hp & _ & Hst & _);
    try (vm_compute; reflexivity).
  exists w'. split; [exact Hrun |]. split; assumption.
Defined.

Lemma close_rejects_errors_witness :
  exists w',
    run (sink_settles 0 (rejects (VUser 9))) closing_idle = (w', Normal RUnit)
    /\ _state (stream w') = errored
    /\ promises w' !! 2 = Some (Rejected (VUser 9)).
Proof.
  destruct (close_rejects_errors closing_idle 0 {| rq_promise := 2 |} (VUser 9)
              closing_idle_reachable)
    as (w' & Hrun & Hp & _ & Hst & _);
    try (vm_compute; reflexivity).
  - intros _ x wr Hx Hwr. vm_compute in Hx. injection Hx as <-.
    vm_compute in Hwr. injection Hwr as <-. vm_compute. discriminate.
  - exists w'. split; [exact Hrun |]. split; assumption.
Defined.

Lemma abort_idle_stream_witness :
  exists w' p,
    WritableStreamAbort (VUser 5) idle = (w', Normal p)
    /\ _state (stream w') = errored
    /\ sinkCalls w' = [SinkStart; SinkAbort (VUser 5)]
    /\ promises (step (sink_settles 0 fulfils) w') !! p = Some (Fulfilled VUndefined).
Proof.
  destruct (abort_idle_stream idle (VUser 5) idle_reachable)
    as (w' & p & Hrun & _ & _ & Hst & _ & _ & Hsc & _ & _ & _ & _ & Hsettle);
    try (vm_compute; reflexivity).
  exists w', p. split; [exact Hrun |]. split; [exact Hst |]. split; [exact Hsc |].
  exact (Hsettle fulfils).
Defined.

Lemma abort_during_write_witness :
  exists w1 p,
    WritableStreamAbort (VUser 5) writing = (w1, Normal p)
    /\ _state (stream w1) = writable
    /\ exists w2,
         run (sink_settles 0 fulfils) w1 = (w2, Normal RUnit)
         /\ promises w2 !! 2 = Some (Fulfilled VUndefined)
         /\ _state (stream w2) = errored
         /\ sinkCalls w2 = [SinkStart; SinkWrite (VUser 7); SinkAbort (VUser 5)].
Proof.
  destruct (abort_during_write writing (VUser 5) 0 {| rq_promise := 2 |} writing_reachable)
    as (w1 & p & Hrun & _ & _ & Hst & _ & _ & _ & w2 & Hrun2 & Hp & Hst2 & _ & _ & Hsc & _);
    try (vm_compute; reflexivity).
  exists w1, p. split; [exact Hrun |]. split; [exact Hst |].
  exists w2. split; [exact Hrun2 |]. split; [exact Hp |]. split; [exact Hst2 | exact Hsc].
Defined.

Lemma controller_error_idle_stream_witness :
  exists w',
    run (controller_error (VUser 9)) idle = (w', Normal RUnit)
    /\ _state (stream w') = errored
    /\ promises w' !! 1 = Some (Rejected (VUser 9)).
Proof.
  destruct (controller_error_idle_stream idle (VUser 9) idle_reachable)
    as (w' & Hrun & Hst & _ & _ & _ & _ & _ & _ & Hwr);
    try (vm_compute; reflexivity).
  exists w'. split; [exact Hrun |]. split; [exact Hst |].
  apply (Hwr 0 idle_writer); vm_compute; reflexivity.
Defined.

Lemma controller_error_during_write_witness :
  exists w1 w2,
    run (controller_error (VUser 9)) writing_twice = (w1, Normal RUnit)
    /\ promises w1 !! 4 = Some Pending
    /\ run (sink_settles 0 fulfils) w1 = (w2, Normal RUnit)
    /\ promises w2 !! 2 = Some (Fulfilled VUndefined)
    /\ promises w2 !! 4 = Some (Rejected (VUser 9)).
Proof.
  destruct (controller_error_during_write writing_twice (VUser 9) 0 {| rq_promise := 2 |}
              writing_twice_reachable)
    as (w1 & Hrun & _ & _ & _ & _ & _ & _ & Hpend & w2 & Hrun2 & _ & _ & Hp & _ & _ & Hall & _);
    try (vm_compute; reflexivity).
  exists w1, w2. split; [exact Hrun |].
  vm_compute in Hpend. apply Forall_cons in Hpend as [Hq1 _].
  vm_compute in Hall. apply Forall_cons in Hall as [Hq2 _].
  split; [exact Hq1 |]. split; [exact Hrun2 |]. split; [exact Hp | exact Hq2].
Defined.

Lemma releaseLock_detaches_witness :
  exists w',
    run (writer_releaseLock 0) idle = (w', Normal RUnit)
    /\ _writer (stream w') = None
    /\ controller w' = controller idle.
Proof.
  destruct (releaseLock_detaches idle 0 idle_writer idle_reachable)
    as (w' & Hrun & Hs & Hc & _);
    try (vm_compute; reflexivity).
  exists w'. split; [exact Hrun |]. split; [now rewrite Hs | exact Hc].
Defined.

Lemma detached_writer_is_inert_witness :
  exists w',
    WritableStreamDefaultWriter_write 0 (VUser 7) released
    = (w', Normal (length (promises released)))
    /\ stream w' = stream released /\ sinkCalls w' = sinkCalls released.
Proof.
  destruct (detached_writer_is_inert released 0
              {| _ownerWritableStream := false;
                 _readyPromise := 2; _readyPromise_resolve := None;
                 _readyPromise_reject := None;
                 _closedPromise := 1; _closedPromise_resolve := None;
                 _closedPromise_reject := None |}
              (VUser 7) VUndefined released_reachable)
    as ((w' & Hrun & _ & Hs & _ & _ & _ & Hsc) & _).
  - vm_compute; reflexivity.
  - vm_compute; discriminate.
  - exists w'. split; [exact Hrun |]. split; assumption.
Defined.

End FurtherExamples.
